(** * Sonnet retrieval: tokenizer, inverted index and conjunctive search

    A shallow embedding of [Sonnet_Retrieval_2024W/sonnet_retrieval.py]:
    [Document.tokenize], [Query.__init__], [Index.__init__], [Index.add]
    and [Index.search], followed by the properties the specification
    states about them.

    Modelling choices.
    - A Python [str] is a [string]; a character is a code point in the
      range 0..255, on which [str.lower] and the whitespace test of
      [str.split] are given by the tables below.
    - The index is a Python [dict[str, set[int]]]: a [gmap string (gset Z)].
      Equality of [gmap]s is equality of Python dicts (same keys, same
      values; insertion order plays no part).
    - Methods of [Index] read or write the index object: they are
      computations in a state-and-exception monad over the index state.
    - The Porter stemmer lives in a module of its own ([porter_stemmer]);
      it is a parameter of the development.
    - [Sonnet.__init__] reads the identifier and the title out of the raw
      record; a [Sonnet] here is the record of the three attributes it
      sets. *)

From Stdlib Require Import ZArith Ascii String List Sorted Permutation Lia.
From stdpp Require Import gmap strings list fin_maps sorting.
From Stdlib Require Import Decimal DecimalString DecimalPos DecimalZ.

Local Open Scope Z_scope.
Local Open Scope string_scope.

(** ** Python strings *)

Module PyStr.

Definition code (c : ascii) : N := N_of_ascii c.

(** [str.isspace] on one character, code points 0..255: the ASCII
    controls TAB..CR and FS..US, the space, NEL (0x85) and NBSP (0xA0). *)
Definition isspace (c : ascii) : bool :=
  let n := code c in
  ((9 <=? n) && (n <=? 13) || (28 <=? n) && (n <=? 32)
   || (n =? 133) || (n =? 160))%N.

(** [str.lower] on one character, code points 0..255: A..Z and the
    Latin-1 capitals 0xC0..0xDE (without the multiplication sign 0xD7)
    move up by 32. *)
Definition lower_char (c : ascii) : ascii :=
  let n := code c in
  if ((65 <=? n) && (n <=? 90)
      || (192 <=? n) && (n <=? 222) && negb (n =? 215))%N
  then ascii_of_N (n + 32) else c.

(** The character class of [re.sub(r"[.,':;!?]", "", line)]. *)
Definition punctuation : list ascii :=
  ["." ; "," ; "'" ; ":" ; ";" ; "!" ; "?"]%char.

Definition is_punctuation (c : ascii) : bool :=
  existsb (Ascii.eqb c) punctuation.

(** [re.sub(r"[.,':;!?]", "", s)]: every match of the class is deleted. *)
Fixpoint strip_punctuation (s : string) : string :=
  match s with
  | EmptyString => EmptyString
  | String c s' =>
      if is_punctuation c then strip_punctuation s'
      else String c (strip_punctuation s')
  end.

(** [s.lower()] *)
Fixpoint lower (s : string) : string :=
  match s with
  | EmptyString => EmptyString
  | String c s' => String (lower_char c) (lower s')
  end.

(** [s.split()] with no argument: maximal runs of non-whitespace
    characters, in order; no empty word is produced. A non-space
    character either closes a word (end of string or whitespace next) or
    is put in front of the first word of the rest. *)
Fixpoint split (s : string) : list string :=
  match s with
  | EmptyString => []
  | String c s' =>
      if isspace c then split s'
      else match s' with
           | EmptyString => [String c EmptyString]
           | String c' _ =>
               if isspace c' then String c EmptyString :: split s'
               else match split s' with
                    | w :: ws => String c w :: ws
                    | [] => [String c EmptyString]
                    end
           end
  end.

(** [len(s)] *)
Definition len (s : string) : Z := Z.of_nat (String.length s).

(** Every character of [s] satisfies [p]. *)
Fixpoint all_chars (p : ascii -> bool) (s : string) : bool :=
  match s with
  | EmptyString => true
  | String c s' => p c && all_chars p s'
  end.

End PyStr.

(** ** Documents, sonnets and queries *)

(** [class Document]: the [lines] attribute; [Sonnet] and [Query] are its
    subclasses and inherit [tokenize]. *)
Class Document (A : Type) := lines : A -> list string.

Record Sonnet := mkSonnet {
  sonnet_lines : list string;
  id : Z;
  title : string
}.

Record Query := mkQuery { query_lines : list string }.

#[export] Instance Sonnet_Document : Document Sonnet := sonnet_lines.
#[export] Instance Query_Document : Document Query := query_lines.

(** [Query.__init__(self, query)]: [super().__init__([query])]. *)
Definition Query_init (query : string) : Query := mkQuery [query].

Section Tokenize.

(** [PorterStemmer.stem(p, i, j)] of the [porter_stemmer] module. *)
Variable stem : string -> Z -> Z -> string.

(** The loop of [Document.tokenize]: [tokens.extend(clean_line.split())]
    for each line in order. *)
Fixpoint clean_tokens (ls : list string) : list string :=
  match ls with
  | [] => []
  | line :: rest =>
      let clean_line := PyStr.lower (PyStr.strip_punctuation line) in
      PyStr.split clean_line ++ clean_tokens rest
  end.

(** [Document.tokenize(self, use_stemming=True)] *)
Definition tokenize {A} `{Document A} (self : A) (use_stemming : bool)
  : list string :=
  let tokens := clean_tokens (lines self) in
  if use_stemming
  then map (fun token => stem token 0%Z (PyStr.len token - 1)%Z) tokens
  else tokens.

End Tokenize.

(** ** The index object *)

(** Exceptions the modelled statements can raise: [self[token]] on a
    missing key, and [set.intersection()] called without a receiver. *)
Inductive exception := KeyError (key : string) | TypeError.

(** [class Index(dict[str, set[int]])]: the dict content and the
    [documents] attribute. *)
Record Index := mkIndex {
  mapping : gmap string (gset Z);
  documents : list Sonnet
}.

(** Computations on an index object: they may raise, and they return the
    state of the object they leave behind. *)
Definition M (A : Type) : Type := Index -> (exception + A) * Index.

Definition ret {A} (a : A) : M A := fun self => (inr a, self).

Definition raise {A} (e : exception) : M A := fun self => (inl e, self).

Definition bind {A B} (m : M A) (k : A -> M B) : M B :=
  fun self =>
    match m self with
    | (inl e, self') => (inl e, self')
    | (inr a, self') => k a self'
    end.

Notation "'let!' x ':=' m 'in' k" := (bind m (fun x => k))
  (at level 10, x name, m at level 100, k at level 200,
   format "'[v' 'let!'  x  ':='  m  'in' '/' k ']'").

(** [token in self] *)
Definition contains (token : string) : M bool :=
  fun self => (inr (bool_decide (is_Some (mapping self !! token))), self).

(** [self[token]] *)
Definition getitem (token : string) : M (gset Z) :=
  fun self =>
    match mapping self !! token with
    | Some ids => (inr ids, self)
    | None => (inl (KeyError token), self)
    end.

(** [self[token] = ids] *)
Definition setitem (token : string) (ids : gset Z) : M unit :=
  fun self =>
    (inr tt, mkIndex (<[token := ids]> (mapping self)) (documents self)).

(** [self[token].add(i)]: the set stored under [token] is updated in
    place. Every stored set is created by [self[token] = set()] and is
    referenced from that one key only, so updating the object is
    updating the entry. *)
Definition set_add (token : string) (i : Z) : M unit :=
  let! ids := getitem token in setitem token ({[ i ]} ∪ ids).

(** [self.documents] *)
Definition get_documents : M (list Sonnet) :=
  fun self => (inr (documents self), self).

(** [for x in xs: body(x)] *)
Fixpoint for_each {A} (xs : list A) (body : A -> M unit) : M unit :=
  match xs with
  | [] => ret tt
  | x :: rest => let! _ := body x in for_each rest body
  end.

(** [set.intersection] applied to the unpacked list [sets]: the
    intersection of all of them; with no argument the unbound method has
    no receiver and raises [TypeError]. It builds a new set and leaves its
    arguments alone. *)
Definition set_intersection (sets : list (gset Z)) : M (gset Z) :=
  match sets with
  | [] => raise TypeError
  | s :: rest => ret (foldl (∩) s rest)
  end.

(** [sorted(l, key=key)]: a stable sort, ascending in the key. Insertion
    puts an element in front of the first one whose key is not smaller;
    elements with equal keys keep their order. *)
Fixpoint insert_sorted {A} (key : A -> Z) (x : A) (l : list A) : list A :=
  match l with
  | [] => [x]
  | y :: l' =>
      if (key x <=? key y)%Z then x :: y :: l' else y :: insert_sorted key x l'
  end.

Definition sorted {A} (l : list A) (key : A -> Z) : list A :=
  foldr (insert_sorted key) [] l.

Section Index.

Variable stem : string -> Z -> Z -> string.

(** [Index.add(self, document)] *)
Definition add (document : Sonnet) : M unit :=
  for_each (tokenize stem document true) (fun token =>
    let! present := contains token in
    let! _ := (if negb present then setitem token ∅ else ret tt) in
    set_add token (id document)).

(** [Index.__init__(self, documents)]: the new index object, or the
    exception that escapes the constructor. *)
Definition Index_init (documents : list Sonnet) : exception + Index :=
  let self := mkIndex ∅ documents in
  match for_each documents add self with
  | (inl e, _) => inl e
  | (inr _, self') => inr self'
  end.

(** [[self[token] for token in query_tokens if token in self]] *)
Fixpoint relevant (query_tokens : list string) : M (list (gset Z)) :=
  match query_tokens with
  | [] => ret []
  | token :: rest =>
      let! present := contains token in
      if present
      then let! ids := getitem token in
           let! others := relevant rest in
           ret (ids :: others)
      else relevant rest
  end.

(** [Index.search(self, query)] *)
Definition search (query : Query) : M (list Sonnet) :=
  let query_tokens := tokenize stem query true in
  if bool_decide (query_tokens = []) then ret []
  else
    let! relevant_tokens := relevant query_tokens in
    if bool_decide (relevant_tokens = []) then ret []
    else if (length relevant_tokens <? length query_tokens)%nat then ret []
    else
      let! matching_ids := set_intersection relevant_tokens in
      let! docs := get_documents in
      let matching_sonnets :=
        filter (fun doc => id doc ∈ matching_ids) docs in
      ret (sorted matching_sonnets id).

End Index.

(** A stemmer that returns its word unchanged: the simplest function of
    the stemmer's type, for running the code on concrete inputs. *)
Definition stem_id (p : string) (i j : Z) : string := p.

(** Sample sonnets for running the code. *)
Definition sonnet_fair : Sonnet := mkSonnet ["Fair is my love"] 1 "Fair".
Definition sonnet_hate : Sonnet := mkSonnet ["Love's not hate."] 2 "Hate".
Definition sonnet_7 : Sonnet := mkSonnet ["Love is my sin"] 7 "Seven".
Definition sonnet_2 : Sonnet :=
  mkSonnet ["When forty winters"; "thy love"] 2 "Two".
Definition sonnet_19 : Sonnet := mkSonnet ["My love shall live"] 19 "Nineteen".

(** * The rest of the program: sonnet records, display, the read loop *)

(** ** More of Python's strings and integers *)

(** Exceptions of the statements modelled below; [Raised] carries an
    exception of the index methods, [OtherError] one that a library
    outside the program raises (the JSON decoder, the HTTP client). *)
Inductive py_exception :=
| Raised (e : exception)
| IndexError
| ValueError
| EOFError
| OtherError (name : string).

Notation "'let?' x ':=' m 'in' k" :=
  (match m with inl e => inl e | inr x => k end)
  (at level 10, x name, m at level 100, k at level 200,
   format "'[v' 'let?'  x  ':='  m  'in' '/' k ']'").

Module PyText.

(** The line feed and the double quote, which a literal cannot hold. *)
Definition nl : string := String (ascii_of_nat 10) EmptyString.
Definition dquote : string := String (ascii_of_nat 34) EmptyString.

(** [s.startswith(prefix)] *)
Fixpoint starts_with (prefix s : string) : bool :=
  match prefix, s with
  | EmptyString, _ => true
  | String a prefix', String b s' => Ascii.eqb a b && starts_with prefix' s'
  | String _ _, EmptyString => false
  end.

(** The scan of [s.split(sep)] for a separator that is not empty: the
    leftmost match ends the current piece, the search goes on behind it.
    [skip] counts the characters of a matched separator still to pass. *)
Fixpoint split_by_from (sep : string) (skip : nat) (s : string)
  : list string :=
  match s with
  | EmptyString => [EmptyString]
  | String c s' =>
      match skip with
      | S k => split_by_from sep k s'
      | O =>
          if starts_with sep s
          then EmptyString :: split_by_from sep (String.length sep - 1) s'
          else match split_by_from sep 0 s' with
               | piece :: pieces => String c piece :: pieces
               | [] => [String c EmptyString]
               end
      end
  end.

(** [s.split(sep)]: an empty separator raises [ValueError]. *)
Definition split_by (sep s : string) : py_exception + list string :=
  match sep with
  | EmptyString => inl ValueError
  | _ => inr (split_by_from sep 0 s)
  end.

(** [l[i]] on a list, with Python's negative indices. *)
Definition list_getitem {A} (l : list A) (i : Z) : py_exception + A :=
  let n := Z.of_nat (length l) in
  let j := if (i <? 0)%Z then (i + n)%Z else i in
  if ((0 <=? j) && (j <? n))%Z
  then match l !! Z.to_nat j with
       | Some x => inr x
       | None => inl IndexError
       end
  else inl IndexError.

(** [sep.join(l)] *)
Definition join (sep : string) (l : list string) : string :=
  String.concat sep l.

(** [s.lstrip()], [s.rstrip()] and [s.strip()] for a class [p] of
    characters to drop at the ends. *)
Fixpoint lstrip_with (p : ascii -> bool) (s : string) : string :=
  match s with
  | EmptyString => EmptyString
  | String c s' => if p c then lstrip_with p s' else s
  end.

Fixpoint rstrip_with (p : ascii -> bool) (s : string) : string :=
  match s with
  | EmptyString => EmptyString
  | String c s' =>
      match rstrip_with p s' with
      | EmptyString => if p c then EmptyString else String c EmptyString
      | r => String c r
      end
  end.

Definition strip_with (p : ascii -> bool) (s : string) : string :=
  rstrip_with p (lstrip_with p s).

(** [s.strip()] *)
Definition strip (s : string) : string := strip_with PyStr.isspace s.

(** The interpreter's limit on the digits of a decimal conversion between
    [int] and [str] ([sys.int_info.default_max_str_digits]); the program
    leaves it at its default. *)
Definition max_str_digits : nat := 4300.

Definition exceeds_max_str_digits (digits : nat) : bool :=
  (max_str_digits <? digits)%nat.

(** The whitespace [int] skips at both ends of its argument: the ASCII
    blanks TAB..CR and the space, and NEL and NBSP, which it reads as
    spaces. *)
Definition int_space (c : ascii) : bool :=
  let n := PyStr.code c in
  ((9 <=? n) && (n <=? 13) || (n =? 32) || (n =? 133) || (n =? 160))%N.

(** The digits of a decimal literal, most significant first: decimal
    digits, with single underscores allowed between two digits. *)
Fixpoint read_digits (s : string) (after_digit : bool)
  : option Decimal.uint :=
  match s with
  | EmptyString => if after_digit then Some Decimal.Nil else None
  | String c s' =>
      if Ascii.eqb c "_"
      then if after_digit then read_digits s' false else None
      else uint_of_char c (read_digits s' true)
  end.

(** [int(s)] for a string [s]: optional whitespace around an optional
    sign and a decimal literal; anything else, or more digits than the
    limit, raises [ValueError]. *)
Definition int (s : string) : py_exception + Z :=
  let body := strip_with int_space s in
  let '(negative, literal) :=
    match body with
    | String "-" rest => (true, rest)
    | String "+" rest => (false, rest)
    | _ => (false, body)
    end in
  match read_digits literal false with
  | None => inl ValueError
  | Some d =>
      if exceeds_max_str_digits (Decimal.nb_digits d) then inl ValueError
      else inr (Z.of_int (if negative then Decimal.Neg d else Decimal.Pos d))
  end.

(** The decimal digits of the absolute value of [n]. *)
Definition digits_of (n : Z) : Decimal.uint :=
  match Z.to_int n with
  | Decimal.Pos d => d
  | Decimal.Neg d => d
  end.

(** [str(n)] for an integer [n]: the decimal numeral, with a minus sign
    for a negative [n]; more digits than the limit raise [ValueError]. *)
Definition str_int (n : Z) : py_exception + string :=
  if exceeds_max_str_digits (Decimal.nb_digits (digits_of n))
  then inl ValueError
  else inr (NilZero.string_of_int (Z.to_int n)).

End PyText.

(** ** Sonnet records *)

(** One record of the JSON document the service delivers, as
    [Sonnet.__init__] reads it: the string under the key [title] and the
    list of strings under the key [lines]. *)
Record RawSonnet := mkRawSonnet {
  raw_title : string;
  raw_lines : list string
}.

(** [Sonnet.__init__(self, sonnet)] *)
Definition Sonnet_init (sonnet : RawSonnet) : py_exception + Sonnet :=
  let lines := raw_lines sonnet in
  let? before_colon := PyText.split_by ":" (raw_title sonnet) in
  let? first := PyText.list_getitem before_colon 0 in
  let? number := PyText.list_getitem (PyStr.split first) (-1) in
  let? id := PyText.int number in
  let? around := PyText.split_by ": " (raw_title sonnet) in
  let? title := PyText.list_getitem around 1 in
  inr (mkSonnet lines id title).

(** [Sonnet.__repr__(self)] *)
Definition Sonnet_repr (self : Sonnet) : py_exception + string :=
  let joined_lines := PyText.join (PyText.nl +:+ "  ") (lines self) in
  let? number := PyText.str_int (id self) in
  inr ("Sonnet " +:+ number +:+ ": " +:+ title self +:+ PyText.nl +:+ "  "
       +:+ joined_lines +:+ PyText.nl).

(** [Sonnet.__str__(self)] *)
Definition Sonnet_str (self : Sonnet) : py_exception + string :=
  Sonnet_repr self.

(** ** The read loop *)

(** What the program writes to standard output: the prompt of [input],
    and the lines of [print]. *)
Inductive event :=
| Prompt (text : string)
| Printed (text : string).

(** A run of [user_interface]: what it wrote, how it ended (a normal
    return or the exception that left the loop), the lines of standard
    input it did not read, and the index it leaves. *)
Record Session := mkSession {
  events : list event;
  outcome : py_exception + unit;
  unread : list string;
  index_after : Index
}.

(** A list comprehension or generator over [l] whose element expression
    [f] may raise: the first exception ends it. *)
Fixpoint map_err {A B} (f : A -> py_exception + B) (l : list A)
  : py_exception + list B :=
  match l with
  | [] => inr []
  | x :: rest =>
      let? y := f x in
      let? ys := map_err f rest in
      inr (y :: ys)
  end.

Definition prompt_text : string := "Search for sonnets (enter 'q' to quit): ".

(** The first line printed for a query with matches. *)
Definition found_message (user_input : string)
    (matching_sonnets : list Sonnet) : py_exception + string :=
  let? count := PyText.str_int (Z.of_nat (length matching_sonnets)) in
  let? ids := map_err (fun sonnet => PyText.str_int (id sonnet))
                      matching_sonnets in
  inr ("Your search for " +:+ PyText.dquote +:+ user_input +:+ PyText.dquote
       +:+ " matched " +:+ count +:+ " sonnets ("
       +:+ PyText.join ", " ids +:+ "): ").

(** The [if not matching_sonnets: ... else: ...] of the loop body: the
    lines printed, and whether an exception cut the printing short. *)
Definition reply (user_input : string) (matching_sonnets : list Sonnet)
  : list event * (py_exception + unit) :=
  match matching_sonnets with
  | [] =>
      ([Printed ("No sonnets found for query: " +:+ PyText.dquote
                 +:+ user_input +:+ PyText.dquote)], inr tt)
  | _ =>
      match found_message user_input matching_sonnets with
      | inl e => ([], inl e)
      | inr first =>
          match map_err Sonnet_str matching_sonnets with
          | inl e => ([Printed first], inl e)
          | inr texts =>
              ([Printed first; Printed (PyText.join PyText.nl texts)], inr tt)
          end
      end
  end.

Section ReadLoop.

Variable stem : string -> Z -> Z -> string.

(** [user_interface(index)], run on the lines that standard input holds:
    [input] takes the next line, and raises [EOFError] when none is
    left. *)
Fixpoint user_interface (index : Index) (stdin : list string) : Session :=
  match stdin with
  | [] => mkSession [Prompt prompt_text] (inl EOFError) [] index
  | line :: rest =>
      let user_input := PyText.strip line in
      if String.eqb user_input "q"
      then mkSession [Prompt prompt_text; Printed "Quitting search"]
                     (inr tt) rest index
      else
        let query := Query_init user_input in
        match search stem query index with
        | (inl e, index') =>
            mkSession [Prompt prompt_text] (inl (Raised e)) rest index'
        | (inr matching_sonnets, index') =>
            match reply user_input matching_sonnets with
            | (printed, inl e) =>
                mkSession (Prompt prompt_text :: printed) (inl e) rest index'
            | (printed, inr _) =>
                let later := user_interface index' rest in
                mkSession (Prompt prompt_text :: printed ++ events later)
                          (outcome later) (unread later) (index_after later)
            end
        end
  end.

End ReadLoop.

(** ** Loading the sonnets and the main program *)

(** The answer of the sonnet service to the one request the program
    sends. *)
Record Response := mkResponse {
  status_code : Z;
  text : string
}.

(** What the program sees of the world around it: the text files by
    path, what [requests.get] does when called (an exception of the
    client, or a response), and what has been written to standard
    output. *)
Record World := mkWorld {
  files : gmap string string;
  service : py_exception + Response;
  stdout : list event
}.

(** [print(line)] *)
Definition print (line : string) (w : World) : World :=
  mkWorld (files w) (service w) (stdout w ++ [Printed line]).

(** [with open(file_name, "w") as file: file.write(content)] *)
Definition write_file (file_name content : string) (w : World) : World :=
  mkWorld (<[file_name := content]> (files w)) (service w) (stdout w).

(** A run of [main]: how it ended, the world it leaves, and the lines of
    standard input it did not read. *)
Record Run := mkRun {
  run_outcome : py_exception + unit;
  world_after : World;
  run_unread : list string
}.

Section Program.

Variable stem : string -> Z -> Z -> string.

(** [json.loads] of the [json] module, on the JSON documents of the
    service: the list of records, or the decoder's exception. *)
Variable json_loads : string -> py_exception + list RawSonnet.

(** [load_sonnets(file_name)] *)
Definition load_sonnets (file_name : string) (w : World)
  : (py_exception + list RawSonnet) * World :=
  match files w !! file_name with
  | None =>
      match service w with
      | inl e => (inl e, w)
      | inr response =>
          if (status_code response =? 200)%Z
          then
            let w1 := write_file file_name (text response) w in
            let w2 := print ("Sonnets stored in file: " +:+ file_name) w1 in
            (json_loads (text response), w2)
          else (inr [], print "Failed to fetch sonnets" w)
      end
  | Some content => (json_loads content, w)
  end.

(** [main()], run on the lines that standard input holds. *)
Definition main (w : World) (stdin : list string) : Run :=
  let file_name := "json_sonnets.json" in
  match load_sonnets file_name w with
  | (inl e, w1) => mkRun (inl e) w1 stdin
  | (inr sonnets, w1) =>
      let w2 := print "Reading sonnets..." w1 in
      match sonnets with
      | [] => mkRun (inr tt) (print "No sonnets found." w2) stdin
      | _ =>
          match map_err Sonnet_init sonnets with
          | inl e => mkRun (inl e) w2 stdin
          | inr sonnet_instances =>
              match Index_init stem sonnet_instances with
              | inl e => mkRun (inl (Raised e)) w2 stdin
              | inr index =>
                  let session := user_interface stem index stdin in
                  mkRun (outcome session)
                        (mkWorld (files w2) (service w2)
                                 (stdout w2 ++ events session))
                        (unread session)
              end
          end
      end
  end.

End Program.

(** ** Vocabulary of the specification *)

(** A token is lowercase when [lower] leaves it as it is. *)
Definition is_lowercase (t : string) : Prop := PyStr.lower t = t.

(** A token is free of punctuation when none of its characters is in the
    class the tokenizer deletes. *)
Definition punctuation_free (t : string) : Prop :=
  PyStr.all_chars (fun c => negb (PyStr.is_punctuation c)) t = true.

(** A word as [split] delivers it: not empty, no whitespace inside. *)
Definition is_word (t : string) : Prop :=
  t ≠ EmptyString ∧ PyStr.all_chars (fun c => negb (PyStr.isspace c)) t = true.

Definition clean_token (t : string) : Prop :=
  is_lowercase t ∧ punctuation_free t.

(** The posting set of a token: the stored set, or the empty set when the
    token is no key of the mapping. *)
Definition postings (m : gmap string (gset Z)) (token : string) : gset Z :=
  default ∅ (m !! token).

(** What one round of the loop of [add] does to the mapping. *)
Definition add_token (i : Z) (m : gmap string (gset Z)) (token : string)
  : gmap string (gset Z) :=
  <[token := {[ i ]} ∪ postings m token]> m.

(** The mapping after [add(document)]. *)
Definition add_mapping (stem : string -> Z -> Z -> string)
    (m : gmap string (gset Z)) (document : Sonnet) : gmap string (gset Z) :=
  foldl (add_token (id document)) m (tokenize stem document true).

(** The list [search] returns on a mapping, a collection and the query's
    tokens: empty when no token is a key or when fewer sets than tokens
    were found, else the documents whose identifier is in every set found,
    sorted. *)
Definition search_value (m : gmap string (gset Z)) (docs : list Sonnet)
    (query_tokens : list string) : list Sonnet :=
  match omap (fun token => m !! token) query_tokens with
  | [] => []
  | s :: rest =>
      if (length (s :: rest) <? length query_tokens)%nat then []
      else sorted (filter (fun doc => id doc ∈ foldl (∩) s rest) docs) id
  end.

(** The document holds every stemmed token of the query. *)
Definition matches (stem : string -> Z -> Z -> string) (query : Query)
    (d : Sonnet) : Prop :=
  Forall (fun token => token ∈ tokenize stem d true)
         (tokenize stem query true).

#[export] Instance matches_dec stem query d : Decision (matches stem query d).
Proof. unfold matches. apply _. Defined.

(** The result order the specification asks for. *)
Definition ascending_by_id (l : list Sonnet) : Prop := Sorted Z.le (id <$> l).

(** ** Facts about strings and tokens *)

Module PyStrFacts.
Import PyStr.

Ltac by_cases_on_char c :=
  destruct c as [[] [] [] [] [] [] [] []]; vm_compute; congruence.

Lemma lower_char_idem c : lower_char (lower_char c) = lower_char c.
Proof. by_cases_on_char c. Qed.

Lemma lower_char_punctuation c :
  is_punctuation (lower_char c) = is_punctuation c.
Proof. by_cases_on_char c. Qed.

Lemma lower_idem s : lower (lower s) = lower s.
Proof.
  induction s as [|c s IH]; simpl; [reflexivity|].
  now rewrite lower_char_idem, IH.
Qed.

Lemma strip_punctuation_free s :
  all_chars (fun c => negb (is_punctuation c)) (strip_punctuation s) = true.
Proof.
  induction s as [|c s IH]; simpl; [reflexivity|].
  destruct (is_punctuation c) eqn:E; simpl; [exact IH|].
  now rewrite E, IH.
Qed.

Lemma lower_punctuation_free s :
  all_chars (fun c => negb (is_punctuation c)) s = true →
  all_chars (fun c => negb (is_punctuation c)) (lower s) = true.
Proof.
  induction s as [|c s IH]; simpl; [trivial|].
  rewrite lower_char_punctuation.
  intros [-> Hs]%andb_prop. simpl. auto.
Qed.

(** What [split] hands out is cut from its argument: a property of all
    characters of the line is a property of all characters of each
    word. *)
Lemma split_all_chars p s :
  all_chars p s = true → Forall (fun w => all_chars p w = true) (split s).
Proof.
  induction s as [|c s IH]; simpl; [constructor|].
  intros [Hc Hs]%andb_prop. specialize (IH Hs).
  destruct (isspace c); [exact IH|].
  destruct s as [|c' s'].
  - repeat constructor. simpl. now rewrite Hc.
  - destruct (isspace c').
    + constructor; [simpl; now rewrite Hc | exact IH].
    + destruct (split (String c' s')) as [|w ws].
      * repeat constructor. simpl. now rewrite Hc.
      * inversion IH; subst. constructor; [|assumption].
        simpl. rewrite Hc. assumption.
Qed.

(** [split] produces words: none is empty, none holds whitespace. *)
Lemma split_words s : Forall is_word (split s).
Proof.
  induction s as [|c s IH]; simpl; [constructor|].
  destruct (isspace c) eqn:Ec; [exact IH|].
  assert (Hc : is_word (String c EmptyString)).
  { split; [discriminate|]. simpl. now rewrite Ec. }
  destruct s as [|c' s']; [constructor; [exact Hc | constructor]|].
  destruct (isspace c'); [constructor; [exact Hc | exact IH]|].
  destruct (split (String c' s')) as [|w ws];
    [constructor; [exact Hc | constructor]|].
  inversion IH as [|? ? [_ Hw] Hws]; subst.
  constructor; [|assumption].
  split; [discriminate|]. simpl. now rewrite Ec, Hw.
Qed.

Lemma lowercase_all_chars t :
  all_chars (fun c => Ascii.eqb (lower_char c) c) t = true ↔ lower t = t.
Proof.
  induction t as [|c t IH]; simpl; [tauto|].
  rewrite andb_true_iff, IH, Ascii.eqb_eq. split.
  - intros [-> ->]. reflexivity.
  - intros [= -> ->]. auto.
Qed.

Lemma lower_all_chars s :
  all_chars (fun c => Ascii.eqb (lower_char c) c) (lower s) = true.
Proof. apply lowercase_all_chars, lower_idem. Qed.

End PyStrFacts.

Lemma clean_tokens_clean ls : Forall clean_token (clean_tokens ls).
Proof.
  induction ls as [|line rest IH]; simpl; [constructor|].
  apply Forall_app. split; [|exact IH].
  set (clean_line := PyStr.lower (PyStr.strip_punctuation line)).
  pose proof (PyStrFacts.split_all_chars _ clean_line
                (PyStrFacts.lower_all_chars _)) as Hlow.
  pose proof (PyStrFacts.split_all_chars _ clean_line
                (PyStrFacts.lower_punctuation_free _
                   (PyStrFacts.strip_punctuation_free line))) as Hpun.
  rewrite Forall_forall in *. intros t Ht. split.
  - apply PyStrFacts.lowercase_all_chars. auto.
  - apply Hpun, Ht.
Qed.

Lemma clean_tokens_words ls : Forall is_word (clean_tokens ls).
Proof.
  induction ls as [|line rest IH]; simpl; [constructor|].
  apply Forall_app. split; [apply PyStrFacts.split_words | exact IH].
Qed.

(** ** Running the index methods *)

Lemma for_each_run {A} (body : A → M unit) (f : Index → A → Index) xs :
  (∀ x self, body x self = (inr tt, f self x)) →
  ∀ self, for_each xs body self = (inr tt, foldl f self xs).
Proof.
  intros Hbody. induction xs as [|x rest IH]; intros self; simpl.
  - reflexivity.
  - unfold bind. rewrite Hbody. apply IH.
Qed.

Lemma foldl_mkIndex {A} (f : gmap string (gset Z) → A → gmap string (gset Z))
    xs m docs :
  foldl (fun self x => mkIndex (f (mapping self) x) (documents self))
        (mkIndex m docs) xs
  = mkIndex (foldl f m xs) docs.
Proof.
  revert m. induction xs as [|x rest IH]; intros m; simpl; [reflexivity|].
  apply IH.
Qed.

Lemma option_gset_ext (a b : option (gset Z)) :
  (is_Some a ↔ is_Some b) →
  (∀ i, i ∈ default ∅ a ↔ i ∈ default ∅ b) →
  a = b.
Proof.
  intros Hs Hm. destruct a as [x|], b as [y|]; simpl in *.
  - f_equal. apply set_eq. exact Hm.
  - destruct Hs as [Hs _]. destruct Hs as [? ?]; [eauto | discriminate].
  - destruct Hs as [_ Hs]. destruct Hs as [? ?]; [eauto | discriminate].
  - reflexivity.
Qed.

Section IndexFacts.

Variable stem : string -> Z -> Z -> string.

Lemma add_run document self :
  add stem document self
  = (inr tt,
     mkIndex (add_mapping stem (mapping self) document) (documents self)).
Proof.
  unfold add, add_mapping. destruct self as [m docs]. simpl.
  rewrite <- foldl_mkIndex. apply for_each_run.
  intros token [m' docs']. unfold bind, contains, set_add, bind, getitem,
    setitem, add_token, postings. simpl.
  destruct (m' !! token) as [ids|] eqn:E; simpl.
  - rewrite E. reflexivity.
  - rewrite lookup_insert_eq. simpl. rewrite insert_insert_eq. reflexivity.
Qed.

Lemma Index_init_run docs :
  Index_init stem docs = inr (mkIndex (foldl (add_mapping stem) ∅ docs) docs).
Proof.
  unfold Index_init.
  rewrite (for_each_run _
    (fun self d => mkIndex (add_mapping stem (mapping self) d) (documents self)))
    by apply add_run.
  now rewrite foldl_mkIndex.
Qed.

(** *** The content of the mapping *)

Lemma add_token_is_Some i m token T :
  is_Some (add_token i m token !! T) ↔ is_Some (m !! T) ∨ token = T.
Proof.
  unfold add_token. rewrite lookup_insert. case_decide; subst.
  - split; eauto.
  - split; [auto | intros [?|?]; [assumption | contradiction]].
Qed.

Lemma add_token_postings i m token T j :
  j ∈ postings (add_token i m token) T
  ↔ j ∈ postings m T ∨ (token = T ∧ j = i).
Proof.
  unfold postings at 1, add_token. rewrite lookup_insert.
  case_decide; subst; simpl.
  - rewrite elem_of_union, elem_of_singleton. tauto.
  - fold (postings m T). tauto.
Qed.

Lemma add_mapping_is_Some m d T :
  is_Some (add_mapping stem m d !! T)
  ↔ is_Some (m !! T) ∨ T ∈ tokenize stem d true.
Proof.
  unfold add_mapping. generalize (tokenize stem d true) as toks.
  intros toks. revert m.
  induction toks as [|t toks IH]; intros m; simpl.
  - rewrite elem_of_nil. tauto.
  - rewrite IH, add_token_is_Some, elem_of_cons. intuition congruence.
Qed.

Lemma add_mapping_postings m d T j :
  j ∈ postings (add_mapping stem m d) T
  ↔ j ∈ postings m T ∨ (T ∈ tokenize stem d true ∧ j = id d).
Proof.
  unfold add_mapping. generalize (tokenize stem d true) as toks.
  intros toks. revert m.
  induction toks as [|t toks IH]; intros m; simpl.
  - rewrite elem_of_nil. tauto.
  - rewrite IH, add_token_postings, elem_of_cons. intuition congruence.
Qed.

Lemma build_is_Some m docs T :
  is_Some (foldl (add_mapping stem) m docs !! T)
  ↔ is_Some (m !! T) ∨ ∃ d, d ∈ docs ∧ T ∈ tokenize stem d true.
Proof.
  revert m. induction docs as [|d docs IH]; intros m; simpl.
  - split; [auto | intros [?|(d & Hd & _)]; [assumption|]].
    now apply elem_of_nil in Hd.
  - rewrite IH, add_mapping_is_Some. split.
    + intros [[?|?]|(d' & ? & ?)]; [auto | right; exists d | right; exists d'];
        rewrite elem_of_cons; auto.
    + intros [?|(d' & [->|?]%elem_of_cons & ?)]; eauto.
Qed.

Lemma build_postings m docs T j :
  j ∈ postings (foldl (add_mapping stem) m docs) T
  ↔ j ∈ postings m T
    ∨ ∃ d, d ∈ docs ∧ T ∈ tokenize stem d true ∧ id d = j.
Proof.
  revert m. induction docs as [|d docs IH]; intros m; simpl.
  - split; [auto | intros [?|(d & Hd & _)]; [assumption|]].
    now apply elem_of_nil in Hd.
  - rewrite IH, add_mapping_postings. split.
    + intros [[?|[? ->]]|(d' & ? & ? & ?)];
        [auto | right; exists d | right; exists d'];
        rewrite elem_of_cons; auto.
    + intros [?|(d' & [->|?]%elem_of_cons & ? & ?)]; eauto 7.
Qed.

End IndexFacts.

(** ** Sorting by key *)

Section Sorting.

Context {A : Type} (key : A → Z).

Lemma insert_sorted_perm x l : insert_sorted key x l ≡ₚ x :: l.
Proof.
  induction l as [|y l IH]; simpl; [reflexivity|].
  destruct (key x <=? key y)%Z; [reflexivity|].
  rewrite IH. apply Permutation_swap.
Qed.

Lemma sorted_perm l : sorted l key ≡ₚ l.
Proof.
  induction l as [|x l IH]; simpl; [reflexivity|].
  unfold sorted in *. simpl. now rewrite insert_sorted_perm, IH.
Qed.

Lemma insert_sorted_HdRel a x l :
  (a <= key x)%Z → HdRel Z.le a (key <$> l) →
  HdRel Z.le a (key <$> insert_sorted key x l).
Proof.
  intros Hx Hl. destruct l as [|y l]; simpl; [now constructor|].
  destruct (key x <=? key y)%Z; simpl; [now constructor|].
  inversion Hl; subst. now constructor.
Qed.

Lemma insert_sorted_Sorted x l :
  Sorted Z.le (key <$> l) → Sorted Z.le (key <$> insert_sorted key x l).
Proof.
  induction l as [|y l IH]; simpl; intros Hl.
  - repeat constructor.
  - destruct (key x <=? key y)%Z eqn:E; simpl.
    + constructor; [exact Hl|]. constructor. now apply Z.leb_le.
    + apply Sorted_inv in Hl as [Hl Hy]. constructor; [auto|].
      apply insert_sorted_HdRel; [|exact Hy].
      apply Z.leb_gt in E. lia.
Qed.

Lemma sorted_Sorted l : Sorted Z.le (key <$> sorted l key).
Proof.
  induction l as [|x l IH]; simpl; [constructor|].
  apply insert_sorted_Sorted, IH.
Qed.

End Sorting.

(** Elements with equal keys keep their order. *)
Example sorted_is_stable :
  sorted [(3, "c"); (1, "a"); (3, "a"); (1, "b")] fst
  = [(1, "a"); (1, "b"); (3, "c"); (3, "a")].
Proof. reflexivity. Qed.

(** ** Lists, filters and intersections *)

Lemma filter_ext_in {A} (P Q : A → Prop)
  `{∀ x, Decision (P x)} `{∀ x, Decision (Q x)} (l : list A) :
(∀ x, x ∈ l → P x ↔ Q x) → filter P l = filter Q l.
Proof.
induction l as [|x l IH]; intros Hpq; [reflexivity|].
rewrite !filter_cons.
assert (Hx : P x ↔ Q x) by (apply Hpq; left).
rewrite IH by (intros y Hy; apply Hpq; now right).
destruct (decide (P x)), (decide (Q x)); tauto.
Qed.

Lemma filter_none {A} (P : A → Prop) `{∀ x, Decision (P x)} (l : list A) :
(∀ x, x ∈ l → ¬ P x) → filter P l = [].
Proof.
induction l as [|x l IH]; intros Hp; [reflexivity|].
rewrite filter_cons, IH by (intros y Hy; apply Hp; now right).
destruct (decide (P x)) as [Hx|]; [|reflexivity].
exfalso. apply (Hp x); [left | exact Hx].
Qed.

Lemma filter_all {A} (P : A → Prop) `{∀ x, Decision (P x)} (l : list A) :
(∀ x, x ∈ l → P x) → filter P l = l.
Proof.
induction l as [|x l IH]; intros Hp; [reflexivity|].
rewrite filter_cons, IH by (intros y Hy; apply Hp; now right).
destruct (decide (P x)) as [|Hx]; [reflexivity|].
exfalso. apply Hx, Hp. left.
Qed.

Lemma elem_of_foldl_intersection (j : Z) (s : gset Z) rest :
j ∈ foldl (∩) s rest ↔ Forall (fun S => j ∈ S) (s :: rest).
Proof.
revert s. induction rest as [|r rest IH]; intros s; simpl.
- split; [intros; repeat constructor; assumption|].
  intros Hs. now inversion Hs.
- rewrite IH, !Forall_cons, elem_of_intersection. tauto.
Qed.

Lemma omap_all_present {K V} (f : K → option V) (l : list K) :
Forall (fun k => is_Some (f k)) l →
Forall2 (fun k v => f k = Some v) l (omap f l).
Proof.
induction 1 as [|k l [v Hv] _ IH]; simpl; [constructor|].
rewrite Hv. now constructor.
Qed.

Lemma length_omap_le {K V} (f : K → option V) (l : list K) :
(length (omap f l) ≤ length l)%nat.
Proof.
induction l as [|k l IH]; simpl; [lia|].
change (list_omap K V f l) with (omap f l).
destruct (f k); simpl; lia.
Qed.

Lemma length_omap_lt {K V} (f : K → option V) (l : list K) k :
k ∈ l → f k = None → (length (omap f l) < length l)%nat.
Proof.
induction l as [|k' l IH]; intros Hk Hf; [now apply elem_of_nil in Hk|].
simpl. change (list_omap K V f l) with (omap f l).
apply elem_of_cons in Hk as [<-|Hk].
- rewrite Hf. pose proof (length_omap_le f l). lia.
- specialize (IH Hk Hf). destruct (f k'); simpl; lia.
Qed.

Lemma NoDup_id_inj (docs : list Sonnet) d d' :
NoDup (id <$> docs) → d ∈ docs → d' ∈ docs → id d = id d' → d = d'.
Proof.
induction docs as [|x docs IH]; intros Hnd Hd Hd' Hid.
- now apply elem_of_nil in Hd.
- rewrite fmap_cons in Hnd. apply NoDup_cons in Hnd as [Hx Hnd].
  apply elem_of_cons in Hd as [->|Hd], Hd' as [->|Hd'].
  + reflexivity.
  + exfalso. apply Hx. rewrite Hid. now apply list_elem_of_fmap_2.
  + exfalso. apply Hx. rewrite <- Hid. now apply list_elem_of_fmap_2.
  + now apply IH.
Qed.

(** ** Running [search] *)

Section SearchFacts.

Variable stem : string -> Z -> Z -> string.

Lemma relevant_run query_tokens self :
  relevant query_tokens self
  = (inr (omap (fun token => mapping self !! token) query_tokens), self).
Proof.
  induction query_tokens as [|token rest IH]; simpl; [reflexivity|].
  change (list_omap _ _ ?f rest) with (omap f rest).
  unfold bind, contains, getitem.
  destruct (mapping self !! token) as [ids|] eqn:E; simpl.
  - rewrite E, IH. reflexivity.
  - exact IH.
Qed.

(** [search] always returns, and hands the index back as it found it. *)
Lemma search_run query self :
  search stem query self
  = (inr (search_value (mapping self) (documents self)
                       (tokenize stem query true)),
     self).
Proof.
  unfold search, search_value. case_bool_decide as Hq.
  - rewrite Hq. reflexivity.
  - unfold bind. rewrite relevant_run.
    destruct (omap _ (tokenize stem query true)) as [|s rest]; [reflexivity|].
    rewrite bool_decide_eq_false_2 by discriminate.
    destruct (_ <? _)%nat; reflexivity.
Qed.

Lemma search_value_sorted m docs query_tokens :
  ascending_by_id (search_value m docs query_tokens).
Proof.
  unfold search_value, ascending_by_id.
  destruct (omap _ query_tokens) as [|s rest]; [constructor|].
  destruct (_ <? _)%nat; [constructor | apply sorted_Sorted].
Qed.

Lemma search_value_missing m docs query_tokens token :
  token ∈ query_tokens → m !! token = None →
  search_value m docs query_tokens = [].
Proof.
  intros Hin Hnone. unfold search_value.
  pose proof (length_omap_lt (fun t => m !! t) _ _ Hin Hnone) as Hlt.
  destruct (omap _ query_tokens) as [|s rest]; [reflexivity|].
  now apply Nat.ltb_lt in Hlt as ->.
Qed.

Lemma search_value_present m docs query_tokens :
  query_tokens ≠ [] →
  Forall (fun token => is_Some (m !! token)) query_tokens →
  search_value m docs query_tokens
  = sorted (filter (fun doc =>
              Forall (fun token => id doc ∈ postings m token) query_tokens)
            docs) id.
Proof.
  intros Hne Hall. unfold search_value.
  pose proof (omap_all_present (fun t => m !! t) _ Hall) as Hrel.
  pose proof (Forall2_length _ _ _ Hrel) as Hlen.
  destruct (omap _ query_tokens) as [|s rest].
  - destruct query_tokens; [contradiction | discriminate].
  - rewrite Hlen, Nat.ltb_irrefl. f_equal. apply filter_ext_in.
    intros d _. rewrite elem_of_foldl_intersection.
    clear -Hrel. induction Hrel as [|t S ts Ss Ht _ IH].
    + split; constructor.
    + rewrite !Forall_cons, IH. unfold postings. now rewrite Ht.
Qed.

(** On an index built from a collection with distinct identifiers,
    a query with at least one token finds the documents that hold all
    its tokens, whether the tokens are keys of the index or not. *)
Lemma search_value_built docs query :
  NoDup (id <$> docs) → tokenize stem query true ≠ [] →
  search_value (foldl (add_mapping stem) ∅ docs) docs
               (tokenize stem query true)
  = sorted (filter (matches stem query) docs) id.
Proof.
  intros Hnd Hne. set (m := foldl (add_mapping stem) ∅ docs).
  assert (Hpost : ∀ d t, d ∈ docs →
            id d ∈ postings m t ↔ t ∈ tokenize stem d true).
  { intros d t Hd. unfold m. rewrite build_postings.
    unfold postings at 1. rewrite lookup_empty. simpl. split.
    - intros [Hemp|(d' & Hd' & Ht & Hid)];
        [now apply not_elem_of_empty in Hemp|].
      now rewrite (NoDup_id_inj docs d d' Hnd Hd Hd' (eq_sym Hid)).
    - intros Ht. right. exists d. auto. }
  destruct (decide (Forall (fun t => is_Some (m !! t))
                           (tokenize stem query true))) as [Hall|Hmiss].
  - rewrite search_value_present by assumption. f_equal.
    apply filter_ext_in. intros d Hd. unfold matches.
    rewrite !Forall_forall. split; intros H t Ht; apply Hpost; auto.
  - apply not_Forall_Exists in Hmiss; [|apply _].
    apply Exists_exists in Hmiss as (t & Ht & Hnone).
    rewrite (search_value_missing m docs _ t Ht)
      by (apply eq_None_not_Some; exact Hnone).
    rewrite filter_none; [reflexivity|].
    intros d Hd Hmatch. apply Hnone. unfold m. apply build_is_Some.
    right. exists d. split; [exact Hd|].
    unfold matches in Hmatch. rewrite Forall_forall in Hmatch. auto.
Qed.

End SearchFacts.

Lemma postings_lookup (m : gmap string (gset Z)) T j :
  j ∈ postings m T ↔ ∃ S, m !! T = Some S ∧ j ∈ S.
Proof.
  unfold postings. destruct (m !! T) as [S|]; simpl.
  - split; [eauto | intros (S' & [= <-] & ?); assumption].
  - split; [intros []%not_elem_of_empty | intros (? & [=] & _)].
Qed.

(** ** The claims of the specification *)

Ltac by_computation := apply (bool_decide_unpack _); vm_compute; exact I.

(** C1. Whatever the index holds and whatever the query is: when one of the
    stemmed tokens of the query's line is no key of the index mapping,
    [Index.search] returns the empty list, also when the other tokens of
    the query are keys with posting sets of their own. *)
Theorem search_missing_token_empty (stem : string -> Z -> Z -> string)
    (self : Index) (query : Query) (token : string) :
  token ∈ tokenize stem query true →
  mapping self !! token = None →
  search stem query self = (inr [], self).
Proof.
  intros Hin Hnone. rewrite search_run.
  now rewrite (search_value_missing _ _ _ token Hin Hnone).
Qed.

Lemma search_missing_token_empty_witness :
  ∃ idx, Index_init stem_id [sonnet_fair] = inr idx
    ∧ "hate" ∈ tokenize stem_id (Query_init "love hate") true
    ∧ mapping idx !! "hate" = None
    ∧ mapping idx !! "love" = Some {[ 1%Z ]}
    ∧ search stem_id (Query_init "love hate") idx = (inr [], idx).
Proof.
  eexists. split; [apply Index_init_run|].
  assert (Hin : "hate" ∈ tokenize stem_id (Query_init "love hate") true)
    by by_computation.
  assert (Hnone : mapping (mkIndex (foldl (add_mapping stem_id) ∅ [sonnet_fair])
                             [sonnet_fair]) !! "hate" = None)
    by (vm_compute; reflexivity).
  split; [exact Hin|]. split; [exact Hnone|].
  split; [vm_compute; reflexivity|].
  exact (search_missing_token_empty stem_id _ _ "hate" Hin Hnone).
Defined.

(** C2, as amended. On an index built from a collection whose identifiers
    are pairwise distinct (the data model's documents), a query with at
    least one stemmed token, all of whose stemmed tokens are keys of the
    index, gets exactly the documents of the collection whose stemmed
    tokens hold every stemmed token of the query: the documents whose
    identifier lies in the posting set of every query token. *)
Theorem search_conjunctive (stem : string -> Z -> Z -> string)
    (docs : list Sonnet) (idx : Index) (query : Query) :
  NoDup (id <$> docs) →
  Index_init stem docs = inr idx →
  tokenize stem query true ≠ [] →
  Forall (fun token => is_Some (mapping idx !! token))
         (tokenize stem query true) →
  ∃ result,
    search stem query idx = (inr result, idx)
    ∧ result ≡ₚ filter (matches stem query) docs
    ∧ ∀ d, d ∈ result ↔
        d ∈ docs ∧
        Forall (fun token => ∃ S, mapping idx !! token = Some S ∧ id d ∈ S)
               (tokenize stem query true).
Proof.
  intros Hnd Hinit Hne Hall. rewrite Index_init_run in Hinit.
  injection Hinit as <-. eexists. split; [apply search_run|].
  cbn [mapping documents] in *. split.
  - rewrite search_value_built by assumption. apply sorted_perm.
  - intros d. rewrite search_value_present by assumption.
    rewrite sorted_perm, list_elem_of_filter, !Forall_forall.
    split.
    + intros [H ?]. split; [assumption|].
      intros t Ht. apply postings_lookup, H, Ht.
    + intros [? H]. split; [|assumption].
      intros t Ht. apply postings_lookup, H, Ht.
Qed.

Lemma search_conjunctive_witness :
  ∃ idx, Index_init stem_id [sonnet_fair; sonnet_hate] = inr idx
    ∧ ∃ result,
        search stem_id (Query_init "love hate") idx = (inr result, idx)
        ∧ result ≡ₚ filter (matches stem_id (Query_init "love hate"))
                      [sonnet_fair; sonnet_hate]
        ∧ ∀ d, d ∈ result ↔
            d ∈ [sonnet_fair; sonnet_hate] ∧
            Forall (fun token => ∃ S, mapping idx !! token = Some S ∧ id d ∈ S)
                   (tokenize stem_id (Query_init "love hate") true).
Proof.
  eexists. split; [apply Index_init_run|].
  apply (search_conjunctive stem_id [sonnet_fair; sonnet_hate]).
  - by_computation.
  - apply Index_init_run.
  - vm_compute. discriminate.
  - by_computation.
Defined.

(** C2, as stated, fails on the query with no token: every token of the
    empty query is a key of the index and every document holds all of
    them, yet [search] returns nothing. *)
Lemma search_empty_query_counterexample :
  ∃ idx, Index_init stem_id [sonnet_fair] = inr idx
    ∧ Forall (fun token => is_Some (mapping idx !! token))
             (tokenize stem_id (Query_init "") true)
    ∧ search stem_id (Query_init "") idx = (inr [], idx)
    ∧ filter (matches stem_id (Query_init "")) [sonnet_fair] = [sonnet_fair]
    ∧ ¬ ([] ≡ₚ [sonnet_fair]).
Proof.
  eexists. split; [apply Index_init_run|].
  split; [constructor|]. split; [apply search_run|].
  split; [reflexivity|]. intros H. now apply Permutation_nil in H.
Qed.

(** C3, as amended. After [Index] is built from a collection whose
    identifiers are pairwise distinct, for every token [T]
    and every document [D] of the collection: [D.id] is in the posting
    set stored under [T] if and only if [T] is among the stemmed tokens of
    [D]'s lines. *)
Theorem index_membership_iff (stem : string -> Z -> Z -> string)
    (docs : list Sonnet) :
  NoDup (id <$> docs) →
  ∃ idx, Index_init stem docs = inr idx ∧
    ∀ (T : string) (D : Sonnet), D ∈ docs →
      (∃ S, mapping idx !! T = Some S ∧ id D ∈ S) ↔ T ∈ tokenize stem D true.
Proof.
  intros Hnd. eexists. split; [apply Index_init_run|].
  intros T D HD. cbn [mapping].
  rewrite <- postings_lookup, build_postings.
  unfold postings at 1. rewrite lookup_empty. simpl. split.
  - intros [Hemp|(D' & HD' & HT & Hid)];
      [now apply not_elem_of_empty in Hemp|].
    now rewrite (NoDup_id_inj docs D D' Hnd HD HD' (eq_sym Hid)).
  - intros HT. right. exists D. auto.
Qed.

Lemma index_membership_iff_witness :
  NoDup (id <$> [sonnet_fair; sonnet_hate]) ∧
  ∃ idx, Index_init stem_id [sonnet_fair; sonnet_hate] = inr idx ∧
    ∀ (T : string) (D : Sonnet), D ∈ [sonnet_fair; sonnet_hate] →
      (∃ S, mapping idx !! T = Some S ∧ id D ∈ S)
      ↔ T ∈ tokenize stem_id D true.
Proof.
  assert (Hnd : NoDup (id <$> [sonnet_fair; sonnet_hate])) by by_computation.
  split; [exact Hnd|].
  exact (index_membership_iff stem_id [sonnet_fair; sonnet_hate] Hnd).
Defined.

(** C3, as stated, fails on a collection in which two documents share an
    identifier: the second document's identifier is in the posting set of
    a token of the first document that the second does not have. *)
Lemma index_membership_shared_id_counterexample :
  ∃ idx,
    Index_init stem_id [sonnet_fair; mkSonnet ["Hate is my sin"] 1 "Twin"]
    = inr idx
    ∧ mkSonnet ["Hate is my sin"] 1 "Twin"
      ∈ [sonnet_fair; mkSonnet ["Hate is my sin"] 1 "Twin"]
    ∧ (∃ S, mapping idx !! "fair" = Some S
            ∧ id (mkSonnet ["Hate is my sin"] 1 "Twin") ∈ S)
    ∧ ("fair" ∉ tokenize stem_id (mkSonnet ["Hate is my sin"] 1 "Twin") true).
Proof.
  eexists. split; [apply Index_init_run|].
  split; [right; left|]. split.
  - exists {[ 1%Z ]}. split; [vm_compute; reflexivity|].
    now apply elem_of_singleton.
  - by_computation.
Qed.

(** Why C3 and C2 ask for distinct identifiers: the posting sets hold
    identifiers, so two documents that share one cannot be told apart. *)
Example shared_identifier_example :
  let twin := mkSonnet ["Hate is my sin"] 1 "Twin" in
  ∃ idx, Index_init stem_id [sonnet_fair; twin] = inr idx
    ∧ mapping idx !! "fair" = Some {[ id twin ]}
    ∧ "fair" ∉ tokenize stem_id twin true.
Proof.
  eexists. split; [apply Index_init_run|].
  split; [vm_compute; reflexivity | by_computation].
Qed.

(** C4. A query whose line yields no token gets the empty list and no
    exception; the empty string and a string of blanks are such queries. *)
Theorem search_empty_query (stem : string -> Z -> Z -> string)
    (self : Index) :
  (∀ query, tokenize stem query true = [] →
            search stem query self = (inr [], self))
  ∧ search stem (Query_init "") self = (inr [], self)
  ∧ search stem (Query_init "   ") self = (inr [], self).
Proof.
  assert (H : ∀ query, tokenize stem query true = [] →
                       search stem query self = (inr [], self)).
  { intros query Hq. unfold search. rewrite Hq. reflexivity. }
  split; [exact H|]. split; apply H; reflexivity.
Qed.

Lemma search_empty_query_witness :
  tokenize stem_id (Query_init (String "009" "")) true = []
  ∧ search stem_id (Query_init (String "009" "")) (mkIndex ∅ [sonnet_fair])
    = (inr [], mkIndex ∅ [sonnet_fair]).
Proof.
  split; [reflexivity|].
  exact (proj1 (search_empty_query stem_id (mkIndex ∅ [sonnet_fair]))
               (Query_init (String "009" "")) eq_refl).
Defined.

(** C5. Whatever the index holds and whatever the query is, [Index.search]
    returns, and the list it returns is in ascending order of
    identifier. Three documents with the identifiers 7, 2 and 19, given in
    that order and all matching the query, come back in the order 2, 7,
    19. *)
Theorem search_sorted_by_id (stem : string -> Z -> Z -> string) :
  (∀ (self : Index) (query : Query),
     ∃ result, search stem query self = (inr result, self)
               ∧ ascending_by_id result)
  ∧ ∃ idx, Index_init stem [sonnet_7; sonnet_2; sonnet_19] = inr idx
      ∧ search stem (Query_init "love") idx
        = (inr [sonnet_2; sonnet_7; sonnet_19], idx).
Proof.
  split.
  - intros self query. eexists. split; [apply search_run|].
    apply search_value_sorted.
  - eexists. split; [apply Index_init_run|].
    rewrite search_run. cbn [mapping documents].
    rewrite search_value_built; [| by_computation | discriminate].
    rewrite filter_all; [reflexivity|].
    intros d Hd. unfold matches.
    change (tokenize stem (Query_init "love") true)
      with [stem "love" 0%Z 3%Z].
    apply Forall_cons. split; [|constructor].
    rewrite !elem_of_cons, elem_of_nil in Hd.
    destruct Hd as [->|[->|[->|[]]]];
      apply list_elem_of_In; vm_compute; auto 10.
Qed.

(** C6, as amended. [tokenize] is a function of the lines and of the
    stemming flag alone: two objects with the same lines get the same
    tokens. Without stemming every token is lowercase and holds none of
    the punctuation characters the tokenizer deletes; with stemming the
    same holds as soon as the stemmer turns such tokens into such tokens.
    The apostrophe is deleted, not treated as a break: without stemming
    the line [Love's the king!] yields [loves], [the], [king]. *)
Theorem tokenize_deterministic_clean (stem : string -> Z -> Z -> string) :
  (∀ (A B : Type) (HA : Document A) (HB : Document B) (a : A) (b : B)
     (use_stemming : bool),
     lines a = lines b →
     tokenize stem a use_stemming = tokenize stem b use_stemming)
  ∧ (∀ (A : Type) (HA : Document A) (a : A),
       Forall clean_token (tokenize stem a false))
  ∧ ((∀ t, clean_token t → clean_token (stem t 0%Z (PyStr.len t - 1)%Z)) →
     ∀ (A : Type) (HA : Document A) (a : A),
       Forall clean_token (tokenize stem a true))
  ∧ tokenize stem (Query_init "Love's the king!") false
    = ["loves"; "the"; "king"].
Proof.
  split; [|split; [|split]].
  - intros A B HA HB a b use_stemming Hlines. unfold tokenize.
    now rewrite Hlines.
  - intros A HA a. apply clean_tokens_clean.
  - intros Hstem A HA a. unfold tokenize. apply Forall_fmap.
    eapply Forall_impl; [apply clean_tokens_clean|]. exact Hstem.
  - reflexivity.
Qed.

Lemma tokenize_deterministic_clean_witness :
  (∀ t, clean_token t → clean_token (stem_id t 0%Z (PyStr.len t - 1)%Z))
  ∧ Forall clean_token (tokenize stem_id (Query_init "Love's the king!") true)
  ∧ tokenize stem_id sonnet_hate true
    = tokenize stem_id (Query_init "Love's not hate.") true.
Proof.
  assert (Hstem : ∀ t, clean_token t →
                       clean_token (stem_id t 0%Z (PyStr.len t - 1)%Z))
    by (intros t Ht; exact Ht).
  split; [exact Hstem|]. split.
  - exact (proj1 (proj2 (proj2 (tokenize_deterministic_clean stem_id)))
                 Hstem Query _ (Query_init "Love's the king!")).
  - exact (proj1 (tokenize_deterministic_clean stem_id)
                 Sonnet Query _ _ sonnet_hate
                 (Query_init "Love's not hate.") true eq_refl).
Defined.

(** C6, as stated, fails on its own example: without stemming the first
    token of [Love's the king!] is [loves]. *)
Lemma tokenize_apostrophe_counterexample :
  tokenize stem_id (Query_init "Love's the king!") false
  = ["loves"; "the"; "king"]
  ∧ tokenize stem_id (Query_init "Love's the king!") false
    ≠ ["love"; "the"; "king"].
Proof. split; [reflexivity | discriminate]. Qed.

(** Characters outside the deleted class stay in the tokens: a hyphen or a
    bracket is part of the word around it. *)
Example tokenize_keeps_other_marks (stem : string -> Z -> Z -> string) :
  tokenize stem (Query_init "(Self-love) is sin") false
  = ["(self-love)"; "is"; "sin"].
Proof. reflexivity. Qed.

(** C7. Building the index from a permutation of the collection gives the
    same mapping from tokens to sets of identifiers. *)
Theorem index_order_independent (stem : string -> Z -> Z -> string)
    (docs docs' : list Sonnet) :
  docs ≡ₚ docs' →
  ∃ idx idx', Index_init stem docs = inr idx
    ∧ Index_init stem docs' = inr idx'
    ∧ mapping idx = mapping idx'.
Proof.
  intros Hperm. do 2 eexists.
  split; [apply Index_init_run|]. split; [apply Index_init_run|].
  cbn [mapping]. apply map_eq. intros T. apply option_gset_ext.
  - rewrite !build_is_Some. setoid_rewrite Hperm. reflexivity.
  - intros j. fold (postings (foldl (add_mapping stem) ∅ docs) T).
    fold (postings (foldl (add_mapping stem) ∅ docs') T).
    rewrite !build_postings. setoid_rewrite Hperm. reflexivity.
Qed.

Lemma index_order_independent_witness :
  [sonnet_fair; sonnet_hate] ≡ₚ [sonnet_hate; sonnet_fair] ∧
  ∃ idx idx', Index_init stem_id [sonnet_fair; sonnet_hate] = inr idx
    ∧ Index_init stem_id [sonnet_hate; sonnet_fair] = inr idx'
    ∧ mapping idx = mapping idx'.
Proof.
  assert (Hperm : [sonnet_fair; sonnet_hate] ≡ₚ [sonnet_hate; sonnet_fair])
    by apply Permutation_swap.
  split; [exact Hperm|].
  exact (index_order_independent stem_id _ _ Hperm).
Defined.

(** C8. [Query(s)] has the one-element list [[s]] as its lines, and it is
    tokenized by [Document.tokenize] like a sonnet with these lines. *)
Theorem query_single_line (stem : string -> Z -> Z -> string) (s : string) :
  lines (Query_init s) = [s]
  ∧ ∀ (d : Sonnet) (use_stemming : bool),
      lines d = [s] →
      tokenize stem (Query_init s) use_stemming = tokenize stem d use_stemming.
Proof.
  split; [reflexivity|].
  intros d use_stemming Hd. unfold tokenize. now rewrite Hd.
Qed.

Lemma query_single_line_witness :
  lines sonnet_fair = ["Fair is my love"]
  ∧ tokenize stem_id (Query_init "Fair is my love") true
    = tokenize stem_id sonnet_fair true.
Proof.
  split; [reflexivity|].
  exact (proj2 (query_single_line stem_id "Fair is my love")
               sonnet_fair true eq_refl).
Defined.

(** C9. [Index.search] hands the index back as it found it: the mapping
    and the retained collection are unchanged, whatever the index held
    and whatever the query is. *)
Theorem search_read_only (stem : string -> Z -> Z -> string)
    (self : Index) (query : Query) :
  mapping (snd (search stem query self)) = mapping self
  ∧ documents (snd (search stem query self)) = documents self.
Proof. rewrite search_run. split; reflexivity. Qed.

(** C10. After [Index] is built, the collection is retained, every key of
    the mapping has a posting set that is not empty, and every identifier
    in a posting set is the identifier of a document of the collection. *)
Theorem index_postings_nonempty_known (stem : string -> Z -> Z -> string)
    (docs : list Sonnet) :
  ∃ idx, Index_init stem docs = inr idx
    ∧ documents idx = docs
    ∧ ∀ (T : string) (S : gset Z), mapping idx !! T = Some S →
        S ≠ ∅ ∧ ∀ i, i ∈ S → ∃ D, D ∈ documents idx ∧ id D = i.
Proof.
  eexists. split; [apply Index_init_run|]. split; [reflexivity|].
  cbn [mapping documents]. intros T S HS.
  assert (Hmem : ∀ i, i ∈ S ↔
            ∃ D, D ∈ docs ∧ T ∈ tokenize stem D true ∧ id D = i).
  { intros i. pose proof (build_postings stem ∅ docs T i) as Hb.
    unfold postings in Hb. rewrite HS, lookup_empty in Hb. simpl in Hb.
    rewrite Hb. split; [|auto].
    intros [Hemp|?]; [now apply not_elem_of_empty in Hemp | assumption]. }
  split.
  - pose proof (build_is_Some stem ∅ docs T) as Hs.
    rewrite HS, lookup_empty in Hs.
    destruct Hs as [[[? [=]]|(D & HD & HT)] _]; [eauto|].
    intros ->. apply (not_elem_of_empty (C:=gset Z) (id D)).
    apply Hmem. eauto.
  - intros i (D & HD & _ & Hid)%Hmem. eauto.
Qed.

Lemma index_postings_nonempty_known_witness :
  ∃ idx, Index_init stem_id [sonnet_fair; sonnet_hate] = inr idx
    ∧ mapping idx !! "love" = Some {[ 1%Z ]}
    ∧ ({[ 1%Z ]} : gset Z) ≠ ∅
    ∧ ∀ i, i ∈ ({[ 1%Z ]} : gset Z) →
           ∃ D, D ∈ documents idx ∧ id D = i.
Proof.
  destruct (index_postings_nonempty_known stem_id [sonnet_fair; sonnet_hate])
    as (idx & Hinit & _ & Hidx).
  exists idx. split; [exact Hinit|].
  assert (Hlove : mapping idx !! "love" = Some {[ 1%Z ]}).
  { rewrite Index_init_run in Hinit. injection Hinit as <-.
    vm_compute. reflexivity. }
  split; [exact Hlove|]. exact (Hidx "love" _ Hlove).
Defined.

(** ** More about the tokenizer *)

Module SplitFacts.
Import PyStr.

Lemma isspace_lower_char c : isspace (lower_char c) = isspace c.
Proof. PyStrFacts.by_cases_on_char c. Qed.

Lemma split_word w : is_word w → split w = [w].
Proof.
  induction w as [|c w IH]; intros [Hne Hw]; [contradiction|].
  simpl in *. apply andb_prop in Hw as [Hc Hw].
  apply negb_true_iff in Hc. rewrite Hc.
  destruct w as [|c' w']; [reflexivity|].
  assert (Hw' : is_word (String c' w')) by (split; [discriminate | exact Hw]).
  simpl in Hw. apply andb_prop in Hw as [Hc' _].
  apply negb_true_iff in Hc'. rewrite Hc'. now rewrite (IH Hw').
Qed.

Lemma split_starts_word c s : isspace c = false → split (String c s) ≠ [].
Proof.
  intros Hc. simpl. rewrite Hc. destruct s as [|c' s']; [discriminate|].
  destruct (isspace c'); [discriminate|].
  destruct (split (String c' s')); discriminate.
Qed.

(** A whitespace character between two strings separates their words. *)
Lemma split_app_space s1 c s2 :
  isspace c = true →
  split (s1 +:+ String c s2) = (split s1 ++ split s2)%list.
Proof.
  intros Hc. induction s1 as [|a s1 IH].
  - simpl. now rewrite Hc.
  - change (String a s1 +:+ String c s2) with (String a (s1 +:+ String c s2)).
    cbn [split]. destruct (isspace a) eqn:Ha; [exact IH|].
    destruct s1 as [|a' s1'].
    + change ("" +:+ String c s2) with (String c s2).
      simpl. now rewrite !Hc.
    + change (String a' s1' +:+ String c s2)
        with (String a' (s1' +:+ String c s2)) in *.
      cbv beta iota. rewrite IH.
      destruct (isspace a') eqn:Ha'; [reflexivity|].
      pose proof (split_starts_word a' s1' Ha') as Hne.
      destruct (split (String a' s1')) as [|w ws]; [now destruct Hne|].
      reflexivity.
Qed.

Lemma split_nil s : split s = [] ↔ all_chars isspace s = true.
Proof.
  induction s as [|c s IH]; [simpl; tauto|].
  cbn [all_chars]. destruct (isspace c) eqn:Hc.
  - simpl. rewrite Hc. exact IH.
  - split; [|discriminate]. intros H.
    now apply split_starts_word in H.
Qed.

Lemma strip_punctuation_id s :
  all_chars (fun c => negb (is_punctuation c)) s = true →
  strip_punctuation s = s.
Proof.
  induction s as [|c s IH]; [reflexivity|]. simpl.
  intros [Hc Hs]%andb_prop. apply negb_true_iff in Hc. rewrite Hc.
  now rewrite IH.
Qed.

Lemma strip_punctuation_lower s :
  strip_punctuation (lower s) = lower (strip_punctuation s).
Proof.
  induction s as [|c s IH]; [reflexivity|]. simpl.
  rewrite PyStrFacts.lower_char_punctuation.
  destruct (is_punctuation c); simpl; now rewrite IH.
Qed.

Lemma strip_punctuation_app s1 s2 :
  strip_punctuation (s1 +:+ s2)
  = strip_punctuation s1 +:+ strip_punctuation s2.
Proof.
  induction s1 as [|c s1 IH]; [reflexivity|]. simpl.
  destruct (is_punctuation c); simpl; now rewrite IH.
Qed.

Lemma lower_app s1 s2 : lower (s1 +:+ s2) = lower s1 +:+ lower s2.
Proof.
  induction s1 as [|c s1 IH]; [reflexivity|]. simpl. now rewrite IH.
Qed.

(** The characters that leave no trace in the tokens. *)
Definition is_blank (c : ascii) : bool := isspace c || is_punctuation c.

Lemma clean_line_nil line :
  split (lower (strip_punctuation line)) = []
  ↔ all_chars is_blank line = true.
Proof.
  rewrite split_nil. induction line as [|c line IH]; [simpl; tauto|].
  cbn [strip_punctuation all_chars]. unfold is_blank at 1.
  destruct (is_punctuation c) eqn:Hp.
  - rewrite orb_true_r. simpl. exact IH.
  - rewrite orb_false_r. cbn [lower all_chars].
    rewrite isspace_lower_char, !andb_true_iff, IH. tauto.
Qed.

End SplitFacts.

Lemma clean_tokens_app l1 l2 :
  clean_tokens (l1 ++ l2) = (clean_tokens l1 ++ clean_tokens l2)%list.
Proof.
  induction l1 as [|line l1 IH]; simpl; [reflexivity|].
  now rewrite IH, app_assoc.
Qed.

Lemma clean_tokens_fixed ts :
  Forall clean_token ts → Forall is_word ts → clean_tokens ts = ts.
Proof.
  induction 1 as [|t ts [Hlow Hpun] _ IH]; intros Hw; [reflexivity|].
  apply Forall_cons in Hw as [Ht Hw]. simpl.
  rewrite (SplitFacts.strip_punctuation_id t Hpun), Hlow.
  rewrite (SplitFacts.split_word t Ht). simpl. now rewrite IH.
Qed.

Lemma clean_tokens_nil ls :
  clean_tokens ls = []
  ↔ Forall (fun line => PyStr.all_chars SplitFacts.is_blank line = true) ls.
Proof.
  induction ls as [|line ls IH]; simpl.
  - split; [constructor | reflexivity].
  - rewrite Forall_cons, <- IH, <- SplitFacts.clean_line_nil.
    split.
    + intros H. now apply app_eq_nil in H.
    + intros [-> ->]. reflexivity.
Qed.

Lemma clean_tokens_elem line ls t :
  line ∈ ls → t ∈ clean_tokens [line] → t ∈ clean_tokens ls.
Proof.
  intros Hline Ht. simpl in Ht. rewrite app_nil_r in Ht.
  induction ls as [|l ls IH]; [now apply elem_of_nil in Hline|].
  simpl. apply elem_of_app. apply elem_of_cons in Hline as [<-|Hline]; auto.
Qed.

Lemma space_not_punctuation c :
  PyStr.isspace c = true → PyStr.is_punctuation c = false.
Proof. PyStrFacts.by_cases_on_char c. Qed.

Lemma clean_tokens_space s1 c s2 :
  PyStr.isspace c = true →
  clean_tokens [s1 +:+ String c s2] = clean_tokens [s1; s2].
Proof.
  intros Hc. simpl. rewrite !app_nil_r.
  rewrite SplitFacts.strip_punctuation_app. simpl.
  rewrite (space_not_punctuation c Hc), SplitFacts.lower_app. simpl.
  apply SplitFacts.split_app_space.
  now rewrite SplitFacts.isspace_lower_char.
Qed.

(** X1. Every token that [tokenize] hands to the stemmer is a word: it is
    not empty and holds no whitespace, so the end index [len(token) - 1]
    of the stemmer call is never negative. *)
Theorem stemmer_receives_words (stem : string -> Z -> Z -> string)
    (A : Type) (HA : Document A) (a : A) :
  Forall (fun t => is_word t ∧ (0 <= PyStr.len t - 1)%Z)
         (tokenize stem a false).
Proof.
  unfold tokenize. eapply Forall_impl; [apply clean_tokens_words|].
  intros t Ht. split; [exact Ht|]. destruct Ht as [Hne _].
  destruct t; [contradiction|]. unfold PyStr.len. simpl. lia.
Qed.

(** X2. The tokens of a document are the tokens of its lines in order:
    for lines that are the concatenation of two lists, the tokens are the
    concatenation of the two token lists, with or without stemming. *)
Theorem tokenize_app (stem : string -> Z -> Z -> string)
    (A B C : Type) (HA : Document A) (HB : Document B) (HC : Document C)
    (a : A) (b : B) (c : C) (use_stemming : bool) :
  lines a = (lines b ++ lines c)%list →
  tokenize stem a use_stemming
  = (tokenize stem b use_stemming ++ tokenize stem c use_stemming)%list.
Proof.
  intros H. unfold tokenize. rewrite H, clean_tokens_app.
  destruct use_stemming; [apply map_app | reflexivity].
Qed.

Lemma tokenize_app_witness :
  tokenize stem_id (mkSonnet ["Fair is my love"; "Love's not hate."] 3 "Both")
           true
  = (tokenize stem_id sonnet_fair true
     ++ tokenize stem_id sonnet_hate true)%list.
Proof.
  exact (tokenize_app stem_id Sonnet Sonnet Sonnet _ _ _
           (mkSonnet ["Fair is my love"; "Love's not hate."] 3 "Both")
           sonnet_fair sonnet_hate true eq_refl).
Defined.

(** X3. Tokenizing without stemming is idempotent: the tokens, taken as
    lines of their own, are tokenized to themselves. *)
Theorem tokenize_idempotent (stem : string -> Z -> Z -> string)
    (A : Type) (HA : Document A) (a : A) :
  tokenize stem (mkQuery (tokenize stem a false)) false
  = tokenize stem a false.
Proof.
  unfold tokenize. cbn [lines Query_Document query_lines].
  apply clean_tokens_fixed;
    [apply clean_tokens_clean | apply clean_tokens_words].
Qed.

(** X4. [tokenize] yields no token exactly when every line consists of
    whitespace and of the deleted punctuation characters only. *)
Theorem tokenize_nil_iff (stem : string -> Z -> Z -> string)
    (A : Type) (HA : Document A) (a : A) (use_stemming : bool) :
  tokenize stem a use_stemming = []
  ↔ Forall (fun line => PyStr.all_chars SplitFacts.is_blank line = true)
           (lines a).
Proof.
  rewrite <- clean_tokens_nil. unfold tokenize.
  destruct use_stemming; [|reflexivity].
  destruct (clean_tokens (lines a)); simpl; split; congruence.
Qed.

(** X5. A whitespace character inside a line separates tokens like a
    line break: the line [s1 c s2] has the tokens of the two lines [s1]
    and [s2]. *)
Theorem tokenize_space_is_line_break (stem : string -> Z -> Z -> string)
    (s1 s2 : string) (c : ascii) (use_stemming : bool) :
  PyStr.isspace c = true →
  tokenize stem (Query_init (s1 +:+ String c s2)) use_stemming
  = tokenize stem (mkQuery [s1; s2]) use_stemming.
Proof.
  intros Hc. unfold tokenize, Query_init.
  cbn [lines Query_Document query_lines].
  now rewrite (clean_tokens_space s1 c s2 Hc).
Qed.

Lemma tokenize_space_is_line_break_witness :
  PyStr.isspace " " = true
  ∧ tokenize stem_id (Query_init ("love," +:+ String " " "Hate!")) true
    = tokenize stem_id (mkQuery ["love,"; "Hate!"]) true.
Proof.
  split; [reflexivity|].
  exact (tokenize_space_is_line_break stem_id "love," "Hate!" " " true
           eq_refl).
Defined.

(** X6. On query strings of code points 0..255, where [lower] works
    character by character, search does not see the case of the query:
    two such strings with the same lowercase form get the same answer
    from every index. *)
Theorem search_ignores_case (stem : string -> Z -> Z -> string)
    (self : Index) (s1 s2 : string) :
  PyStr.lower s1 = PyStr.lower s2 →
  search stem (Query_init s1) self = search stem (Query_init s2) self.
Proof.
  intros H. unfold search, tokenize, Query_init.
  cbn [lines Query_Document query_lines clean_tokens].
  now rewrite <- !SplitFacts.strip_punctuation_lower, H.
Qed.

Lemma search_ignores_case_witness :
  PyStr.lower "LOVE Hate" = PyStr.lower "love hATE"
  ∧ search stem_id (Query_init "LOVE Hate") (mkIndex ∅ [sonnet_fair])
    = search stem_id (Query_init "love hATE") (mkIndex ∅ [sonnet_fair]).
Proof.
  split; [reflexivity|].
  exact (search_ignores_case stem_id (mkIndex ∅ [sonnet_fair])
           "LOVE Hate" "love hATE" eq_refl).
Defined.

(** ** More about the index *)

Lemma search_value_nil m docs : search_value m docs [] = [].
Proof. reflexivity. Qed.

Lemma elem_of_search_value m docs query_tokens d :
  d ∈ search_value m docs query_tokens
  ↔ query_tokens ≠ [] ∧ d ∈ docs
    ∧ Forall (fun t => ∃ S, m !! t = Some S ∧ id d ∈ S) query_tokens.
Proof.
  destruct (decide (Forall (fun t => is_Some (m !! t)) query_tokens))
    as [Hall|Hmiss].
  - destruct (decide (query_tokens = [])) as [->|Hne].
    + rewrite search_value_nil, elem_of_nil. tauto.
    + rewrite search_value_present by assumption.
      rewrite sorted_perm, list_elem_of_filter, !Forall_forall.
      setoid_rewrite postings_lookup. tauto.
  - apply not_Forall_Exists in Hmiss; [|apply _].
    apply Exists_exists in Hmiss as (t & Ht & Hnone).
    rewrite (search_value_missing m docs _ t Ht)
      by (apply eq_None_not_Some; exact Hnone).
    rewrite elem_of_nil, Forall_forall. split; [tauto|].
    intros (_ & _ & H). destruct (H t Ht) as (S & HS & _).
    apply Hnone. eauto.
Qed.

Lemma search_value_same_tokens m docs t1 t2 :
  (∀ t, t ∈ t1 ↔ t ∈ t2) →
  search_value m docs t1 = search_value m docs t2.
Proof.
  intros Hsame.
  assert (Hall : ∀ P : string → Prop, Forall P t1 ↔ Forall P t2).
  { intros P. rewrite !Forall_forall. split; intros H t Ht; apply H, Hsame, Ht. }
  destruct t1 as [|a t1], t2 as [|b t2]; [reflexivity| | |].
  - exfalso. apply (elem_of_nil b), Hsame. left.
  - exfalso. apply (elem_of_nil a), Hsame. left.
  - destruct (decide (Forall (fun t => is_Some (m !! t)) (a :: t1)))
      as [H1|Hmiss].
    + rewrite (search_value_present m docs (a :: t1)) by (discriminate || exact H1).
      rewrite (search_value_present m docs (b :: t2))
        by (discriminate || (apply Hall; exact H1)).
      f_equal. apply filter_ext_in. intros d _. apply Hall.
    + apply not_Forall_Exists in Hmiss; [|apply _].
      apply Exists_exists in Hmiss as (t & Ht & Hnone).
      apply eq_None_not_Some in Hnone.
      rewrite (search_value_missing m docs _ t Ht Hnone).
      apply Hsame in Ht.
      now rewrite (search_value_missing m docs _ t Ht Hnone).
Qed.

Lemma add_mapping_idem stem m d :
  add_mapping stem (add_mapping stem m d) d = add_mapping stem m d.
Proof.
  apply map_eq. intros T. apply option_gset_ext.
  - rewrite !add_mapping_is_Some. tauto.
  - intros j. fold (postings (add_mapping stem (add_mapping stem m d) d) T).
    fold (postings (add_mapping stem m d) T).
    rewrite !add_mapping_postings. tauto.
Qed.

Lemma add_mapping_comm stem m d1 d2 :
  add_mapping stem (add_mapping stem m d1) d2
  = add_mapping stem (add_mapping stem m d2) d1.
Proof.
  apply map_eq. intros T. apply option_gset_ext.
  - rewrite !add_mapping_is_Some. tauto.
  - intros j. fold (postings (add_mapping stem (add_mapping stem m d1) d2) T).
    fold (postings (add_mapping stem (add_mapping stem m d2) d1) T).
    rewrite !add_mapping_postings. tauto.
Qed.

(** X7. The content of a built index, with or without shared
    identifiers: a token is a key exactly when some document of the
    collection has it among its stemmed tokens, and its posting set holds
    exactly the identifiers of the documents that have it. *)
Theorem index_posting_sets (stem : string -> Z -> Z -> string)
    (docs : list Sonnet) :
  ∃ idx, Index_init stem docs = inr idx ∧
    ∀ T : string,
      (mapping idx !! T = None
       ↔ ∀ d, d ∈ docs → T ∉ tokenize stem d true)
      ∧ ∀ S, mapping idx !! T = Some S →
          ∀ i, i ∈ S ↔ ∃ d, d ∈ docs ∧ T ∈ tokenize stem d true ∧ id d = i.
Proof.
  eexists. split; [apply Index_init_run|]. intros T. cbn [mapping]. split.
  - rewrite eq_None_not_Some, build_is_Some, lookup_empty. split.
    + intros H d Hd HT. apply H. eauto.
    + intros H [[? [=]]|(d & Hd & HT)]. now apply (H d).
  - intros S HS i. pose proof (build_postings stem ∅ docs T i) as Hb.
    unfold postings in Hb. rewrite HS, lookup_empty in Hb. simpl in Hb.
    rewrite Hb. split; [|auto].
    intros [Hemp|?]; [now apply not_elem_of_empty in Hemp | assumption].
Qed.

(** X8. [add] is idempotent: adding a document a second time raises
    nothing and leaves the index as the first call left it. *)
Theorem add_idempotent (stem : string -> Z -> Z -> string)
    (self : Index) (document : Sonnet) :
  ∃ self', add stem document self = (inr tt, self')
    ∧ add stem document self' = (inr tt, self').
Proof.
  eexists. split; [apply add_run|]. rewrite add_run. cbn [mapping documents].
  now rewrite add_mapping_idem.
Qed.

(** X9. What [add] does to an index, whatever it holds: it raises
    nothing, leaves the retained collection alone (the document is not
    appended to it), puts the document's identifier under each of its
    tokens, does not touch the other keys, and never takes an identifier
    out of a posting set. *)
Theorem add_frame (stem : string -> Z -> Z -> string)
    (self : Index) (document : Sonnet) :
  ∃ self', add stem document self = (inr tt, self')
    ∧ documents self' = documents self
    ∧ (∀ T, T ∈ tokenize stem document true →
            ∃ S', mapping self' !! T = Some S' ∧ id document ∈ S')
    ∧ (∀ T, T ∉ tokenize stem document true →
            mapping self' !! T = mapping self !! T)
    ∧ (∀ T S, mapping self !! T = Some S →
              ∃ S', mapping self' !! T = Some S' ∧ S ⊆ S').
Proof.
  eexists. split; [apply add_run|]. cbn [mapping documents].
  split; [reflexivity|]. split; [|split].
  - intros T HT. apply postings_lookup, add_mapping_postings. auto.
  - intros T HT. apply option_gset_ext.
    + rewrite add_mapping_is_Some. tauto.
    + intros j. fold (postings (add_mapping stem (mapping self) document) T).
      fold (postings (mapping self) T). rewrite add_mapping_postings. tauto.
  - intros T S HS.
    destruct (proj2 (add_mapping_is_Some stem (mapping self) document T))
      as [S' HS']; [left; eauto|].
    exists S'. split; [exact HS'|]. intros j Hj.
    assert (Hp : j ∈ postings (add_mapping stem (mapping self) document) T).
    { apply add_mapping_postings. left. unfold postings. now rewrite HS. }
    unfold postings in Hp. now rewrite HS' in Hp.
Qed.

(** X10. Two calls of [add] commute: the index after adding two documents
    does not depend on which was added first. *)
Theorem add_commutes (stem : string -> Z -> Z -> string)
    (self : Index) (d1 d2 : Sonnet) :
  snd (add stem d2 (snd (add stem d1 self)))
  = snd (add stem d1 (snd (add stem d2 self))).
Proof.
  rewrite !add_run. cbn [snd mapping documents].
  now rewrite add_mapping_comm.
Qed.

(** X11. [search] returns documents of the retained collection only, each
    at most as often as the collection holds it. *)
Theorem search_within_documents (stem : string -> Z -> Z -> string)
    (self : Index) (query : Query) :
  ∃ result, search stem query self = (inr result, self)
    ∧ result ⊆+ documents self.
Proof.
  eexists. split; [apply search_run|]. unfold search_value.
  destruct (omap _ _) as [|s rest]; [apply submseteq_nil_l|].
  destruct (_ <? _)%nat; [apply submseteq_nil_l|].
  rewrite sorted_perm. apply sublist_submseteq, sublist_filter.
Qed.

(** X12. A document indexed by [add] after the index was built is never
    returned by [search], since [add] does not retain it. *)
Theorem added_document_not_found (stem : string -> Z -> Z -> string)
    (docs : list Sonnet) (idx self' : Index) (d : Sonnet) (query : Query) :
  Index_init stem docs = inr idx →
  add stem d idx = (inr tt, self') →
  d ∉ docs →
  ∃ result, search stem query self' = (inr result, self') ∧ d ∉ result.
Proof.
  intros Hinit Hadd Hd. rewrite Index_init_run in Hinit.
  injection Hinit as <-. rewrite add_run in Hadd. injection Hadd as <-.
  eexists. split; [apply search_run|]. cbn [mapping documents].
  rewrite elem_of_search_value. tauto.
Qed.

Lemma added_document_not_found_witness :
  ∃ idx self',
    Index_init stem_id [sonnet_fair] = inr idx
    ∧ add stem_id sonnet_hate idx = (inr tt, self')
    ∧ (sonnet_hate ∉ [sonnet_fair])
    ∧ mapping self' !! "hate" = Some {[ 2%Z ]}
    ∧ ∃ result, search stem_id (Query_init "hate") self' = (inr result, self')
                ∧ sonnet_hate ∉ result.
Proof.
  do 2 eexists.
  split; [apply Index_init_run|]. split; [apply add_run|].
  assert (Hd : sonnet_hate ∉ [sonnet_fair])
    by (intros [H|H]%elem_of_cons; [discriminate H | now apply elem_of_nil in H]).
  split; [exact Hd|]. split; [vm_compute; reflexivity|].
  exact (added_document_not_found stem_id [sonnet_fair] _ _ sonnet_hate
           (Query_init "hate") (Index_init_run stem_id [sonnet_fair])
           (add_run stem_id sonnet_hate _) Hd).
Defined.

(** X13. Only the set of query tokens counts: two queries with the same
    stemmed tokens, in whatever order and however often repeated, get the
    same answer from every index. *)
Theorem search_ignores_token_order (stem : string -> Z -> Z -> string)
    (self : Index) (q1 q2 : Query) :
  (∀ t, t ∈ tokenize stem q1 true ↔ t ∈ tokenize stem q2 true) →
  search stem q1 self = search stem q2 self.
Proof.
  intros Hsame. rewrite !search_run.
  now rewrite (search_value_same_tokens _ _ _ _ Hsame).
Qed.

Lemma search_ignores_token_order_witness :
  (∀ t, t ∈ tokenize stem_id (Query_init "love hate") true
        ↔ t ∈ tokenize stem_id (Query_init "hate love love") true)
  ∧ search stem_id (Query_init "love hate") (mkIndex ∅ [sonnet_fair])
    = search stem_id (Query_init "hate love love") (mkIndex ∅ [sonnet_fair]).
Proof.
  assert (Hsame : ∀ t, t ∈ tokenize stem_id (Query_init "love hate") true
                       ↔ t ∈ tokenize stem_id (Query_init "hate love love") true).
  { intros t. change (t ∈ ["love"; "hate"] ↔ t ∈ ["hate"; "love"; "love"]).
    rewrite !elem_of_cons, elem_of_nil. tauto. }
  split; [exact Hsame|].
  exact (search_ignores_token_order stem_id _ _ _ Hsame).
Defined.

(** X14. Queries compose as a conjunction: when two query strings both
    yield tokens, the answer to the two strings put together with a
    whitespace character between them holds exactly the documents that
    are in both single answers, whatever the index holds. *)
Theorem search_conjunction (stem : string -> Z -> Z -> string)
    (self : Index) (s1 s2 : string) (c : ascii) :
  PyStr.isspace c = true →
  tokenize stem (Query_init s1) true ≠ [] →
  tokenize stem (Query_init s2) true ≠ [] →
  ∃ both r1 r2,
    search stem (Query_init (s1 +:+ String c s2)) self = (inr both, self)
    ∧ search stem (Query_init s1) self = (inr r1, self)
    ∧ search stem (Query_init s2) self = (inr r2, self)
    ∧ ∀ d, d ∈ both ↔ d ∈ r1 ∧ d ∈ r2.
Proof.
  intros Hc H1 H2. do 3 eexists.
  split; [apply search_run|]. split; [apply search_run|].
  split; [apply search_run|]. intros d.
  assert (Hboth : tokenize stem (Query_init (s1 +:+ String c s2)) true
                  = (tokenize stem (Query_init s1) true
                     ++ tokenize stem (Query_init s2) true)%list).
  { unfold tokenize, Query_init. cbn [lines Query_Document query_lines].
    rewrite (clean_tokens_space s1 c s2 Hc).
    change [s1; s2] with ([s1] ++ [s2])%list.
    now rewrite clean_tokens_app, map_app. }
  rewrite Hboth, !elem_of_search_value, Forall_app. split.
  - intros (_ & Hd & Ht1 & Ht2). auto.
  - intros [(_ & Hd & Ht1) (_ & _ & Ht2)]. split; [|auto].
    intros [? _]%app_eq_nil. contradiction.
Qed.

Lemma search_conjunction_witness :
  ∃ idx, Index_init stem_id [sonnet_fair; sonnet_hate] = inr idx
    ∧ ∃ both r1 r2,
        search stem_id (Query_init ("not" +:+ String " " "hate")) idx
        = (inr both, idx)
        ∧ search stem_id (Query_init "not") idx = (inr r1, idx)
        ∧ search stem_id (Query_init "hate") idx = (inr r2, idx)
        ∧ ∀ d, d ∈ both ↔ d ∈ r1 ∧ d ∈ r2.
Proof.
  eexists. split; [apply Index_init_run|].
  apply (search_conjunction stem_id _ "not" "hate" " ").
  - reflexivity.
  - discriminate.
  - discriminate.
Defined.

(** X15. Every document of a built index is found by each of its own
    lines: a query made of a line of the document that yields a token
    returns the document. Identifiers need not be distinct. *)
Theorem search_finds_own_line (stem : string -> Z -> Z -> string)
    (docs : list Sonnet) (idx : Index) (d : Sonnet) (line : string) :
  Index_init stem docs = inr idx →
  d ∈ docs →
  line ∈ lines d →
  tokenize stem (Query_init line) true ≠ [] →
  ∃ result, search stem (Query_init line) idx = (inr result, idx)
            ∧ d ∈ result.
Proof.
  intros Hinit Hd Hline Hne. rewrite Index_init_run in Hinit.
  injection Hinit as <-. eexists. split; [apply search_run|].
  cbn [mapping documents]. apply elem_of_search_value.
  split; [exact Hne|]. split; [exact Hd|].
  apply Forall_forall. intros t Ht. apply postings_lookup, build_postings.
  right. exists d. split; [exact Hd|]. split; [|reflexivity].
  unfold tokenize, Query_init in *.
  cbn [lines Query_Document query_lines] in Ht.
  apply list_elem_of_fmap in Ht as (w & -> & Hw).
  apply list_elem_of_fmap. exists w. split; [reflexivity|].
  exact (clean_tokens_elem line _ w Hline Hw).
Qed.

Lemma search_finds_own_line_witness :
  ∃ idx, Index_init stem_id [sonnet_fair; sonnet_2] = inr idx
    ∧ sonnet_2 ∈ [sonnet_fair; sonnet_2]
    ∧ "thy love" ∈ lines sonnet_2
    ∧ ∃ result, search stem_id (Query_init "thy love") idx = (inr result, idx)
                ∧ sonnet_2 ∈ result.
Proof.
  eexists. split; [apply Index_init_run|].
  assert (Hd : sonnet_2 ∈ [sonnet_fair; sonnet_2])
    by (right; left).
  assert (Hline : "thy love" ∈ lines sonnet_2) by (right; left).
  split; [exact Hd|]. split; [exact Hline|].
  apply (search_finds_own_line stem_id [sonnet_fair; sonnet_2] _ sonnet_2
           "thy love" (Index_init_run stem_id _) Hd Hline).
  discriminate.
Defined.


(** ** Facts about the strings and integers *)

Module PyTextFacts.
Import PyText.

(** [sep] occurs somewhere in [s]. *)
Fixpoint occurs (sep s : string) : bool :=
  starts_with sep s
  || match s with
     | EmptyString => false
     | String _ s' => occurs sep s'
     end.

Lemma starts_with_app sep b : starts_with sep (sep +:+ b) = true.
Proof.
  induction sep as [|c sep IH]; [reflexivity|].
  change (String c sep +:+ b) with (String c (sep +:+ b)). simpl.
  now rewrite Ascii.eqb_refl, IH.
Qed.

Lemma starts_with_split sep s :
  starts_with sep s = true → ∃ b, s = sep +:+ b.
Proof.
  revert s. induction sep as [|c sep IH]; intros s H.
  - exists s. reflexivity.
  - destruct s as [|c' s]; [discriminate|]. simpl in H.
    apply andb_prop in H as [Hc Hs]. apply Ascii.eqb_eq in Hc as <-.
    destruct (IH s Hs) as [b ->]. exists b. reflexivity.
Qed.

Lemma occurs_split sep s :
  occurs sep s = true → ∃ a b, s = a +:+ sep +:+ b.
Proof.
  induction s as [|c s IH]; simpl; intros H.
  - rewrite orb_false_r in H. apply starts_with_split in H as [b H].
    exists EmptyString, b. exact H.
  - apply orb_prop in H as [H|H].
    + apply starts_with_split in H as [b H].
      exists EmptyString, b. exact H.
    + destruct (IH H) as (a & b & ->). exists (String c a), b. reflexivity.
Qed.

Lemma not_occurs sep s :
  (∀ a b, s ≠ a +:+ sep +:+ b) → occurs sep s = false.
Proof.
  intros H. destruct (occurs sep s) eqn:E; [|reflexivity].
  apply occurs_split in E as (a & b & E). now destruct (H a b).
Qed.

(** *** Splitting at [": "] and at [":"] *)

Lemma split_colon_space_none s :
  occurs ": " s = false → split_by_from ": " 0 s = [s].
Proof.
  induction s as [|c s IH]; [reflexivity|].
  cbn [occurs]. intros [Hc Hs]%orb_false_elim.
  cbn [split_by_from]. rewrite Hc, (IH Hs). reflexivity.
Qed.

Lemma split_colon_space a b :
  occurs ": " a = false →
  split_by_from ": " 0 (a +:+ ": " +:+ b) = a :: split_by_from ": " 0 b.
Proof.
  induction a as [|c a IH].
  - intros _. reflexivity.
  - cbn [occurs]. intros [Hc Ha]%orb_false_elim.
    change (String c a +:+ ": " +:+ b) with (String c (a +:+ ": " +:+ b)).
    cbn [split_by_from]. rewrite (IH Ha).
    assert (Hstart : starts_with ": " (String c (a +:+ ": " +:+ b)) = false).
    { cbn [starts_with] in *. destruct (Ascii.eqb ":" c); [|reflexivity].
      destruct a as [|c' a']; [reflexivity|].
      change (String c' a' +:+ ": " +:+ b)
        with (String c' (a' +:+ ": " +:+ b)).
      simpl in Hc. now destruct (Ascii.eqb " " c'). }
    now rewrite Hstart.
Qed.

Lemma split_colon a b :
  occurs ":" a = false →
  split_by_from ":" 0 (a +:+ ":" +:+ b) = a :: split_by_from ":" 0 b.
Proof.
  induction a as [|c a IH].
  - intros _. reflexivity.
  - cbn [occurs]. intros [Hc Ha]%orb_false_elim.
    change (String c a +:+ ":" +:+ b) with (String c (a +:+ ":" +:+ b)).
    cbn [split_by_from]. rewrite (IH Ha).
    assert (Hstart : starts_with ":" (String c (a +:+ ":" +:+ b)) = false).
    { cbn [starts_with] in *. now destruct (Ascii.eqb ":" c). }
    now rewrite Hstart.
Qed.

Lemma occurs_app_false sep a b :
  String.length sep = 1%nat →
  occurs sep a = false → occurs sep b = false → occurs sep (a +:+ b) = false.
Proof.
  destruct sep as [|s [|? ?]]; try discriminate. intros _.
  induction a as [|c a IH]; [auto|].
  cbn [occurs]. intros [Hc Ha]%orb_false_elim Hb.
  change (String c a +:+ b) with (String c (a +:+ b)).
  cbn [occurs]. rewrite (IH Ha Hb), orb_false_r.
  cbn [starts_with] in *. now destruct (Ascii.eqb s c).
Qed.

(** *** Indexing *)

Lemma list_getitem_last {A} (l : list A) x :
  list_getitem (l ++ [x]) (-1) = inr x.
Proof.
  unfold list_getitem. rewrite length_app. cbn [length].
  change (-1 <? 0)%Z with true. cbv beta iota.
  replace (-1 + Z.of_nat (length l + 1))%Z with (Z.of_nat (length l)) by lia.
  rewrite Nat2Z.id.
  replace ((0 <=? Z.of_nat (length l)) &&
           (Z.of_nat (length l) <? Z.of_nat (length l + 1)))%Z with true
    by (symmetry; apply andb_true_intro; split;
        [apply Z.leb_le | apply Z.ltb_lt]; lia).
  now rewrite lookup_app_r, Nat.sub_diag by lia.
Qed.

Lemma list_getitem_singleton_1 {A} (x : A) :
  list_getitem [x] 1 = inl IndexError.
Proof. reflexivity. Qed.

(** *** Numerals *)

Definition is_digit (c : ascii) : bool :=
  let n := PyStr.code c in ((48 <=? n) && (n <=? 57))%N.

Lemma string_of_uint_digits d :
  PyStr.all_chars is_digit (NilEmpty.string_of_uint d) = true.
Proof. induction d; simpl; auto. Qed.

Lemma read_digits_string_of_uint d :
  read_digits (NilEmpty.string_of_uint d) true = Some d.
Proof. induction d; simpl; rewrite ?IHd; reflexivity. Qed.

Lemma read_digits_string_of_uint_start d :
  d ≠ Decimal.Nil →
  read_digits (NilEmpty.string_of_uint d) false = Some d.
Proof.
  destruct d; [contradiction|..]; intros _; simpl;
    now rewrite read_digits_string_of_uint.
Qed.

Lemma digits_of_nonnil n : digits_of n ≠ Decimal.Nil.
Proof.
  unfold digits_of. destruct n as [|p|p]; simpl;
    [discriminate | apply DecimalPos.Unsigned.to_uint_nonnil..].
Qed.

Lemma lstrip_with_id p s :
  PyStr.all_chars (fun c => negb (p c)) s = true → lstrip_with p s = s.
Proof.
  destruct s as [|c s]; [reflexivity|]. simpl.
  intros [Hc _]%andb_prop. apply negb_true_iff in Hc. now rewrite Hc.
Qed.

Lemma rstrip_with_id p s :
  PyStr.all_chars (fun c => negb (p c)) s = true → rstrip_with p s = s.
Proof.
  induction s as [|c s IH]; [reflexivity|]. simpl.
  intros [Hc Hs]%andb_prop. apply negb_true_iff in Hc.
  rewrite (IH Hs), Hc. now destruct s.
Qed.

Lemma strip_with_id p s :
  PyStr.all_chars (fun c => negb (p c)) s = true → strip_with p s = s.
Proof.
  intros H. unfold strip_with. now rewrite (lstrip_with_id p s H), rstrip_with_id.
Qed.

Lemma all_chars_impl (p q : ascii → bool) s :
  (∀ c, p c = true → q c = true) →
  PyStr.all_chars p s = true → PyStr.all_chars q s = true.
Proof.
  intros Hpq. induction s as [|c s IH]; [trivial|]. simpl.
  intros [Hc Hs]%andb_prop. now rewrite (Hpq c Hc), IH.
Qed.

Lemma all_chars_app p s1 s2 :
  PyStr.all_chars p (s1 +:+ s2)
  = PyStr.all_chars p s1 && PyStr.all_chars p s2.
Proof.
  induction s1 as [|c s1 IH]; [reflexivity|].
  change (String c s1 +:+ s2) with (String c (s1 +:+ s2)). simpl.
  now rewrite IH, andb_assoc.
Qed.

(** The characters of a numeral: digits and the minus sign. *)
Definition is_numeral_char (c : ascii) : bool :=
  is_digit c || Ascii.eqb c "-".

Lemma numeral_chars n :
  PyStr.all_chars is_numeral_char (NilZero.string_of_int (Z.to_int n)) = true.
Proof.
  assert (H : ∀ d, d ≠ Decimal.Nil →
            PyStr.all_chars is_numeral_char (NilZero.string_of_uint d) = true).
  { intros d Hd. destruct d; [contradiction|..];
      (apply (all_chars_impl is_digit);
       [intros c Hc; unfold is_numeral_char; now rewrite Hc
       | apply (string_of_uint_digits (_ d))]). }
  pose proof (digits_of_nonnil n) as Hn. unfold digits_of in Hn.
  destruct (Z.to_int n) as [d|d]; simpl; [now apply H|].
  now apply H.
Qed.

Lemma numeral_char_not_space c :
  is_numeral_char c = true → PyStr.isspace c = false.
Proof. PyStrFacts.by_cases_on_char c. Qed.

Lemma numeral_char_not_int_space c :
  is_numeral_char c = true → int_space c = false.
Proof. PyStrFacts.by_cases_on_char c. Qed.

Lemma numeral_char_not_colon c :
  is_numeral_char c = true → Ascii.eqb ":" c = false.
Proof. PyStrFacts.by_cases_on_char c. Qed.

Lemma str_int_inv n s :
  str_int n = inr s →
  s = NilZero.string_of_int (Z.to_int n)
  ∧ exceeds_max_str_digits (Decimal.nb_digits (digits_of n)) = false.
Proof.
  unfold str_int. destruct (exceeds_max_str_digits _); [discriminate|].
  intros [= <-]. auto.
Qed.

(** [int(str(n))] is [n] whenever [str(n)] stays within the limit. *)
Lemma int_str_int n s : str_int n = inr s → int s = inr n.
Proof.
  intros [-> Hlim]%str_int_inv. unfold int.
  rewrite strip_with_id
    by (eapply all_chars_impl; [|apply numeral_chars];
        intros c Hc; now rewrite (numeral_char_not_int_space c Hc)).
  pose proof (digits_of_nonnil n) as Hnn.
  rewrite <- (DecimalZ.of_to n) at 2.
  unfold digits_of in *. destruct (Z.to_int n) as [d|d].
  - destruct d; [contradiction|..]; cbn [NilZero.string_of_int
      NilZero.string_of_uint NilEmpty.string_of_uint];
      cbv beta iota;
      pose proof (read_digits_string_of_uint_start _ Hnn) as Hr;
      cbn [NilEmpty.string_of_uint] in Hr; now rewrite Hr, Hlim.
  - cbn [NilZero.string_of_int]. cbv beta iota.
    replace (NilZero.string_of_uint d) with (NilEmpty.string_of_uint d)
      by (now destruct d).
    rewrite (read_digits_string_of_uint_start d Hnn). now rewrite Hlim.
Qed.

Lemma numeral_is_word n s : str_int n = inr s → is_word s.
Proof.
  intros [-> _]%str_int_inv. split.
  - pose proof (digits_of_nonnil n) as Hnn. unfold digits_of in Hnn.
    destruct (Z.to_int n) as [d|d]; [|discriminate].
    destruct d; [contradiction|..]; discriminate.
  - eapply all_chars_impl; [|apply numeral_chars].
    intros c Hc. now rewrite (numeral_char_not_space c Hc).
Qed.

Lemma numeral_no_colon n s : str_int n = inr s → occurs ":" s = false.
Proof.
  intros [-> _]%str_int_inv. pose proof (numeral_chars n) as H.
  induction (NilZero.string_of_int (Z.to_int n)) as [|c s IH]; [reflexivity|].
  simpl in H. apply andb_prop in H as [Hc Hs]. cbn [occurs starts_with].
  now rewrite (numeral_char_not_colon c Hc), (IH Hs).
Qed.

End PyTextFacts.

(** ** Reading a sonnet record *)

Module SonnetFacts.
Import PyText PyTextFacts.

Lemma append_assoc (a b c : string) : (a +:+ b) +:+ c = a +:+ (b +:+ c).
Proof.
  induction a as [|x a IH]; [reflexivity|].
  change ((String x a +:+ b) +:+ c) with (String x ((a +:+ b) +:+ c)).
  now rewrite IH.
Qed.

Lemma split_by_from_nonempty sep skip s : split_by_from sep skip s ≠ [].
Proof.
  revert skip. induction s as [|c s IH]; intros skip; [discriminate|].
  simpl. destruct skip as [|k]; [|apply IH].
  destruct (starts_with sep (String c s)); [discriminate|].
  destruct (split_by_from sep 0 s); discriminate.
Qed.

Lemma list_getitem_0 {A} (x : A) l : list_getitem (x :: l) 0 = inr x.
Proof.
  unfold list_getitem. cbn [length].
  change (0 <? 0)%Z with false. cbv beta iota.
  replace (0 <? Z.of_nat (S (length l)))%Z with true
    by (symmetry; apply Z.ltb_lt; lia).
  reflexivity.
Qed.

Lemma list_getitem_1 {A} (x y : A) l : list_getitem (x :: y :: l) 1 = inr y.
Proof.
  unfold list_getitem. cbn [length].
  change (1 <? 0)%Z with false. cbv beta iota.
  replace (1 <? Z.of_nat (S (S (length l))))%Z with true
    by (symmetry; apply Z.ltb_lt; lia).
  reflexivity.
Qed.

Lemma occurs_colon_space s : occurs ":" s = false → occurs ": " s = false.
Proof.
  induction s as [|c s IH]; [reflexivity|].
  cbn [occurs starts_with]. intros [Hc Hs]%orb_false_elim.
  rewrite (IH Hs), orb_false_r.
  destruct (Ascii.eqb ":" c); [discriminate | reflexivity].
Qed.

Lemma space_not_colon c : PyStr.isspace c = true → Ascii.eqb ":" c = false.
Proof. PyStrFacts.by_cases_on_char c. Qed.

(** The text in front of the colon: any words without a colon, a
    whitespace character, the numeral. *)
Lemma heading_no_colon prefix c n numeral :
  occurs ":" prefix = false → PyStr.isspace c = true →
  str_int n = inr numeral →
  occurs ":" (prefix +:+ String c numeral) = false.
Proof.
  intros Hp Hc Hn. apply occurs_app_false; [reflexivity | exact Hp |].
  cbn [occurs starts_with].
  now rewrite (space_not_colon c Hc), (numeral_no_colon n numeral Hn).
Qed.

(** What [Sonnet.__init__] reads from a title of the form
    [prefix c numeral ": " rest]: the number, and the first piece of
    [rest] between separators [": "]. *)
Lemma Sonnet_init_heading prefix c n numeral rest ls :
  occurs ":" prefix = false → PyStr.isspace c = true →
  str_int n = inr numeral →
  ∃ t pieces,
    split_by_from ": " 0 rest = t :: pieces
    ∧ Sonnet_init
        (mkRawSonnet (prefix +:+ String c numeral +:+ ": " +:+ rest) ls)
      = inr (mkSonnet ls n t).
Proof.
  intros Hp Hc Hn.
  pose proof (heading_no_colon prefix c n numeral Hp Hc Hn) as Hhead.
  destruct (split_by_from ": " 0 rest) as [|t pieces] eqn:Hrest;
    [now apply split_by_from_nonempty in Hrest|].
  exists t, pieces. split; [reflexivity|].
  unfold Sonnet_init. cbn [raw_title raw_lines split_by].
  rewrite <- (append_assoc prefix (String c numeral) (": " +:+ rest)).
  change (": " +:+ rest) with (":" +:+ (" " +:+ rest)) at 1.
  rewrite (split_colon _ _ Hhead), list_getitem_0.
  rewrite (SplitFacts.split_app_space prefix c numeral Hc).
  rewrite (SplitFacts.split_word numeral (numeral_is_word n numeral Hn)).
  rewrite list_getitem_last, (int_str_int n numeral Hn).
  rewrite (split_colon_space _ rest (occurs_colon_space _ Hhead)), Hrest.
  now rewrite list_getitem_1.
Qed.

End SonnetFacts.

(** X16. [Sonnet.__init__] takes the identifier from the last word in
    front of the first colon and the title from what follows the first
    colon-and-space: a title made of any text without a colon, a
    whitespace character, the decimal numeral of [n], a colon, a space and
    a text [t] without colon-and-space gives the sonnet with identifier
    [n], title [t] and the record's lines. *)
Theorem Sonnet_init_reads_title (prefix numeral t : string) (c : ascii)
    (n : Z) (ls : list string) :
  (∀ a b, prefix ≠ a +:+ ":" +:+ b) →
  PyStr.isspace c = true →
  PyText.str_int n = inr numeral →
  (∀ a b, t ≠ a +:+ ": " +:+ b) →
  Sonnet_init (mkRawSonnet (prefix +:+ String c numeral +:+ ": " +:+ t) ls)
  = inr (mkSonnet ls n t).
Proof.
  intros Hp Hc Hn Ht.
  destruct (SonnetFacts.Sonnet_init_heading prefix c n numeral t ls
              (PyTextFacts.not_occurs _ _ Hp) Hc Hn)
    as (t' & pieces & Hsplit & ->).
  rewrite (PyTextFacts.split_colon_space_none t
             (PyTextFacts.not_occurs _ _ Ht)) in Hsplit.
  now injection Hsplit as <- _.
Qed.

Lemma occurs_starts sep s :
  PyText.starts_with sep s = true → PyTextFacts.occurs sep s = true.
Proof. intros H. destruct s; simpl; now rewrite H. Qed.

Lemma occurs_intro sep a b : PyTextFacts.occurs sep (a +:+ sep +:+ b) = true.
Proof.
  induction a as [|c a IH].
  - change (EmptyString +:+ sep +:+ b) with (sep +:+ b).
    apply occurs_starts, PyTextFacts.starts_with_app.
  - change (String c a +:+ sep +:+ b) with (String c (a +:+ sep +:+ b)).
    cbn [PyTextFacts.occurs]. rewrite IH. apply orb_true_r.
Qed.

Lemma no_occurrence sep s :
  PyTextFacts.occurs sep s = false → ∀ a b, s ≠ a +:+ sep +:+ b.
Proof.
  intros H a b ->. now rewrite occurs_intro in H.
Qed.

Lemma Sonnet_init_reads_title_witness :
  (∀ a b, "Sonnet" ≠ a +:+ ":" +:+ b)
  ∧ PyStr.isspace " " = true
  ∧ PyText.str_int 18 = inr "18"
  ∧ (∀ a b, "Shall I compare thee" ≠ a +:+ ": " +:+ b)
  ∧ Sonnet_init (mkRawSonnet "Sonnet 18: Shall I compare thee" ["line"])
    = inr (mkSonnet ["line"] 18 "Shall I compare thee").
Proof.
  assert (Hp : ∀ a b, "Sonnet" ≠ a +:+ ":" +:+ b)
    by (apply no_occurrence; reflexivity).
  assert (Ht : ∀ a b, "Shall I compare thee" ≠ a +:+ ": " +:+ b)
    by (apply no_occurrence; reflexivity).
  split; [exact Hp|]. split; [reflexivity|]. split; [reflexivity|].
  split; [exact Ht|].
  exact (Sonnet_init_reads_title "Sonnet" "18" "Shall I compare thee" " " 18
           ["line"] Hp eq_refl eq_refl Ht).
Defined.

(** X17. The title stops at the next colon-and-space: when the text behind
    the number holds a further colon-and-space, [Sonnet.__init__] keeps
    only what stands in front of it. *)
Theorem Sonnet_init_cuts_title (prefix numeral t rest : string) (c : ascii)
    (n : Z) (ls : list string) :
  (∀ a b, prefix ≠ a +:+ ":" +:+ b) →
  PyStr.isspace c = true →
  PyText.str_int n = inr numeral →
  (∀ a b, t ≠ a +:+ ": " +:+ b) →
  Sonnet_init
    (mkRawSonnet
       (prefix +:+ String c numeral +:+ ": " +:+ t +:+ ": " +:+ rest) ls)
  = inr (mkSonnet ls n t).
Proof.
  intros Hp Hc Hn Ht.
  destruct (SonnetFacts.Sonnet_init_heading prefix c n numeral
              (t +:+ ": " +:+ rest) ls
              (PyTextFacts.not_occurs _ _ Hp) Hc Hn)
    as (t' & pieces & Hsplit & ->).
  rewrite (PyTextFacts.split_colon_space t rest
             (PyTextFacts.not_occurs _ _ Ht)) in Hsplit.
  now injection Hsplit as <- _.
Qed.

Lemma Sonnet_init_cuts_title_witness :
  (∀ a b, "Sonnet" ≠ a +:+ ":" +:+ b)
  ∧ PyStr.isspace " " = true
  ∧ PyText.str_int 5 = inr "5"
  ∧ (∀ a b, "Those hours" ≠ a +:+ ": " +:+ b)
  ∧ Sonnet_init (mkRawSonnet "Sonnet 5: Those hours: that with" ["line"])
    = inr (mkSonnet ["line"] 5 "Those hours").
Proof.
  assert (Hp : ∀ a b, "Sonnet" ≠ a +:+ ":" +:+ b)
    by (apply no_occurrence; reflexivity).
  assert (Ht : ∀ a b, "Those hours" ≠ a +:+ ": " +:+ b)
    by (apply no_occurrence; reflexivity).
  split; [exact Hp|]. split; [reflexivity|]. split; [reflexivity|].
  split; [exact Ht|].
  exact (Sonnet_init_cuts_title "Sonnet" "5" "Those hours" "that with" " " 5
           ["line"] Hp eq_refl eq_refl Ht).
Defined.

(** X18. A title without colon-and-space never becomes a sonnet:
    [Sonnet.__init__] raises [IndexError] or [ValueError]. *)
Theorem Sonnet_init_needs_separator (sonnet : RawSonnet) :
  (∀ a b, raw_title sonnet ≠ a +:+ ": " +:+ b) →
  Sonnet_init sonnet = inl IndexError ∨ Sonnet_init sonnet = inl ValueError.
Proof.
  intros H. apply PyTextFacts.not_occurs in H.
  unfold Sonnet_init. cbn [PyText.split_by].
  rewrite (PyTextFacts.split_colon_space_none _ H).
  rewrite PyTextFacts.list_getitem_singleton_1.
  destruct (PyText.list_getitem (PyText.split_by_from ":" 0 _) 0)
    as [e|first] eqn:E1.
  - unfold PyText.list_getitem in E1.
    destruct (_ && _)%bool; [|injection E1 as <-; auto].
    destruct (_ !! _); [discriminate | injection E1 as <-; auto].
  - destruct (PyText.list_getitem (PyStr.split first) (-1)) as [e|number] eqn:E2.
    + unfold PyText.list_getitem in E2.
      destruct (_ && _)%bool; [|injection E2 as <-; auto].
      destruct (_ !! _); [discriminate | injection E2 as <-; auto].
    + destruct (PyText.int number) as [e|i] eqn:E3; [|auto].
      unfold PyText.int in E3.
      destruct (PyText.strip_with _ _) as [|[[] [] [] [] [] [] [] []] ?];
        cbv beta iota in E3;
        (destruct (PyText.read_digits _ _);
         [destruct (PyText.exceeds_max_str_digits _); [|discriminate]|];
         injection E3 as <-; auto).
Qed.

Lemma Sonnet_init_needs_separator_witness :
  (∀ a b, raw_title (mkRawSonnet "Sonnet 18:Shall" []) ≠ a +:+ ": " +:+ b)
  ∧ (Sonnet_init (mkRawSonnet "Sonnet 18:Shall" []) = inl IndexError
     ∨ Sonnet_init (mkRawSonnet "Sonnet 18:Shall" []) = inl ValueError).
Proof.
  assert (H : ∀ a b, raw_title (mkRawSonnet "Sonnet 18:Shall" [])
                     ≠ a +:+ ": " +:+ b)
    by (apply no_occurrence; reflexivity).
  split; [exact H|].
  exact (Sonnet_init_needs_separator (mkRawSonnet "Sonnet 18:Shall" []) H).
Defined.

Lemma blank_no_colon s :
  PyStr.all_chars PyStr.isspace s = true → PyTextFacts.occurs ":" s = false.
Proof.
  induction s as [|c s IH]; [reflexivity|]. cbn [PyStr.all_chars].
  intros [Hc Hs]%andb_prop. cbn [PyTextFacts.occurs PyText.starts_with].
  now rewrite (SonnetFacts.space_not_colon c Hc), (IH Hs).
Qed.

(** X19. A title with no word in front of its first colon raises
    [IndexError]: there is no last word to read the identifier from. *)
Theorem Sonnet_init_needs_number (blank rest : string) (ls : list string) :
  PyStr.all_chars PyStr.isspace blank = true →
  Sonnet_init (mkRawSonnet (blank +:+ ":" +:+ rest) ls) = inl IndexError.
Proof.
  intros Hblank. unfold Sonnet_init. cbn [raw_title raw_lines PyText.split_by].
  rewrite (PyTextFacts.split_colon blank rest (blank_no_colon blank Hblank)).
  rewrite SonnetFacts.list_getitem_0.
  now rewrite (proj2 (SplitFacts.split_nil blank) Hblank).
Qed.

Lemma Sonnet_init_needs_number_witness :
  PyStr.all_chars PyStr.isspace "  " = true
  ∧ Sonnet_init (mkRawSonnet "  : Shall I compare thee" []) = inl IndexError.
Proof.
  split; [reflexivity|].
  exact (Sonnet_init_needs_number "  " " Shall I compare thee" [] eq_refl).
Defined.

Lemma numeral_char_not_nl c :
  PyTextFacts.is_numeral_char c = true → Ascii.eqb (ascii_of_nat 10) c = false.
Proof. PyStrFacts.by_cases_on_char c. Qed.

Lemma numeral_no_nl n s :
  PyText.str_int n = inr s → PyTextFacts.occurs PyText.nl s = false.
Proof.
  intros [-> _]%PyTextFacts.str_int_inv.
  pose proof (PyTextFacts.numeral_chars n) as H.
  induction (NilZero.string_of_int (Z.to_int n)) as [|c s IH]; [reflexivity|].
  simpl in H. apply andb_prop in H as [Hc Hs].
  cbn [PyTextFacts.occurs PyText.starts_with PyText.nl].
  now rewrite (numeral_char_not_nl c Hc), (IH Hs).
Qed.

(** The heading of [repr] holds no line feed when the title holds none. *)
Lemma heading_one_line n numeral t :
  PyText.str_int n = inr numeral →
  PyTextFacts.occurs PyText.nl t = false →
  PyTextFacts.occurs PyText.nl
    ("Sonnet" +:+ String " " numeral +:+ ": " +:+ t) = false.
Proof.
  intros Hn Ht.
  apply PyTextFacts.occurs_app_false; [reflexivity | reflexivity |].
  apply PyTextFacts.occurs_app_false; [reflexivity | |].
  - cbn [PyTextFacts.occurs PyText.starts_with PyText.nl].
    now rewrite (numeral_no_nl n numeral Hn).
  - apply PyTextFacts.occurs_app_false; [reflexivity | reflexivity | exact Ht].
Qed.

(** X20. The first line that [__repr__] prints is a title that [__init__]
    reads back: for a sonnet whose title holds no colon-and-space and no
    line feed, the text of [repr] is a heading without line feed, a line
    feed and the rest, and from that heading with the sonnet's lines
    [Sonnet.__init__] builds the same sonnet again. *)
Theorem Sonnet_repr_heading_round_trip (d : Sonnet) (r : string) :
  Sonnet_repr d = inr r →
  (∀ a b, title d ≠ a +:+ ": " +:+ b) →
  (∀ a b, title d ≠ a +:+ PyText.nl +:+ b) →
  ∃ heading body,
    r = heading +:+ PyText.nl +:+ body
    ∧ (∀ a b, heading ≠ a +:+ PyText.nl +:+ b)
    ∧ Sonnet_init (mkRawSonnet heading (lines d)) = inr d.
Proof.
  intros Hrepr Htitle Hline. unfold Sonnet_repr in Hrepr.
  destruct (PyText.str_int (id d)) as [e|numeral] eqn:Hn; [discriminate|].
  injection Hrepr as <-.
  exists ("Sonnet" +:+ String " " numeral +:+ ": " +:+ title d).
  exists ("  " +:+ PyText.join (PyText.nl +:+ "  ") (lines d) +:+ PyText.nl).
  split; [|split].
  - rewrite !SonnetFacts.append_assoc. reflexivity.
  - apply no_occurrence, (heading_one_line (id d) numeral (title d) Hn).
    exact (PyTextFacts.not_occurs _ _ Hline).
  - destruct (SonnetFacts.Sonnet_init_heading "Sonnet" " " (id d) numeral
                (title d) (lines d) eq_refl eq_refl Hn)
      as (t' & pieces & Hsplit & ->).
    rewrite (PyTextFacts.split_colon_space_none (title d)
               (PyTextFacts.not_occurs _ _ Htitle)) in Hsplit.
    injection Hsplit as <- _. now destruct d.
Qed.

Lemma Sonnet_repr_heading_round_trip_witness :
  ∃ r, Sonnet_repr sonnet_2 = inr r
    ∧ (∀ a b, title sonnet_2 ≠ a +:+ ": " +:+ b)
    ∧ (∀ a b, title sonnet_2 ≠ a +:+ PyText.nl +:+ b)
    ∧ ∃ heading body,
        r = heading +:+ PyText.nl +:+ body
        ∧ (∀ a b, heading ≠ a +:+ PyText.nl +:+ b)
        ∧ Sonnet_init (mkRawSonnet heading (lines sonnet_2)) = inr sonnet_2.
Proof.
  assert (Ht : ∀ a b, title sonnet_2 ≠ a +:+ ": " +:+ b)
    by (apply no_occurrence; reflexivity).
  assert (Hl : ∀ a b, title sonnet_2 ≠ a +:+ PyText.nl +:+ b)
    by (apply no_occurrence; reflexivity).
  eexists. split; [reflexivity|]. split; [exact Ht|]. split; [exact Hl|].
  exact (Sonnet_repr_heading_round_trip sonnet_2 _ eq_refl Ht Hl).
Defined.

(** A line feed in the title breaks the round trip: the first line of
    [repr] then ends inside the title. *)
Example Sonnet_repr_title_with_line_feed :
  ∃ r first_line rest,
    Sonnet_repr (mkSonnet [] 1 ("a" +:+ PyText.nl +:+ "b")) = inr r
    ∧ PyText.split_by PyText.nl r = inr (first_line :: rest)
    ∧ Sonnet_init (mkRawSonnet first_line []) = inr (mkSonnet [] 1 "a").
Proof. do 3 eexists. split; [reflexivity|]. split; reflexivity. Qed.

(** ** Facts about the read loop *)

Lemma str_int_error n e : PyText.str_int n = inl e → e = ValueError.
Proof.
  unfold PyText.str_int. destruct (PyText.exceeds_max_str_digits _);
    [now intros [= <-] | discriminate].
Qed.

Lemma map_err_error {A B} (f : A → py_exception + B) (P : py_exception → Prop)
    l e :
  (∀ x e', f x = inl e' → P e') → map_err f l = inl e → P e.
Proof.
  intros Hf. induction l as [|x l IH]; [discriminate|]. simpl.
  destruct (f x) as [e'|y] eqn:Hx; [intros [= <-]; eauto|].
  destruct (map_err f l) as [e'|ys]; [intros [= <-]; auto | discriminate].
Qed.


Lemma Sonnet_str_error d e : Sonnet_str d = inl e → e = ValueError.
Proof.
  unfold Sonnet_str, Sonnet_repr.
  destruct (PyText.str_int (id d)) eqn:E; [|discriminate].
  intros [= <-]. now apply str_int_error in E.
Qed.

Lemma reply_error user_input matching printed e :
  reply user_input matching = (printed, inl e) → e = ValueError.
Proof.
  unfold reply. destruct matching as [|d l]; [discriminate|].
  destruct (found_message user_input (d :: l)) as [e'|first] eqn:Hm.
  - intros [= _ <-]. unfold found_message in Hm.
    destruct (PyText.str_int (Z.of_nat _)) as [e1|count] eqn:E1;
      [injection Hm as <-; now apply str_int_error in E1|].
    destruct (map_err _ (d :: l)) as [e2|ids] eqn:E2; [|discriminate].
    injection Hm as <-.
    now apply (map_err_error _ (fun e => e = ValueError) _ _
                 (fun x e' => str_int_error (id x) e') E2).
  - destruct (map_err Sonnet_str (d :: l)) as [e2|texts] eqn:E2;
      [|discriminate].
    intros [= _ <-].
    now apply (map_err_error _ (fun e => e = ValueError) _ _
                 Sonnet_str_error E2).
Qed.




Section ReadLoopFacts.

Variable stem : string -> Z -> Z -> string.

Lemma user_interface_cons index line rest :
  user_interface stem index (line :: rest)
  = if String.eqb (PyText.strip line) "q"
    then mkSession [Prompt prompt_text; Printed "Quitting search"]
                   (inr tt) rest index
    else
      match reply (PyText.strip line)
                  (search_value (mapping index) (documents index)
                     (tokenize stem (Query_init (PyText.strip line)) true))
      with
      | (printed, inl e) =>
          mkSession (Prompt prompt_text :: printed) (inl e) rest index
      | (printed, inr _) =>
          let later := user_interface stem index rest in
          mkSession (Prompt prompt_text :: printed ++ events later)
                    (outcome later) (unread later) (index_after later)
      end.
Proof. cbn [user_interface]. now rewrite search_run. Qed.



End ReadLoopFacts.

(** X21. The read loop only reads the index: whatever is typed and however
    the loop ends, the index it leaves is the index it was given. *)
Theorem user_interface_read_only (stem : string -> Z -> Z -> string)
    (index : Index) (stdin : list string) :
  index_after (user_interface stem index stdin) = index.
Proof.
  induction stdin as [|line rest IH]; [reflexivity|].
  rewrite user_interface_cons.
  destruct (String.eqb _ _); [reflexivity|].
  destruct (reply _ _) as [printed [e|u]]; [reflexivity | exact IH].
Qed.

(** X22. The loop returns only on a line that is [q] once the blanks around
    it are stripped: when [user_interface] returns, it has read the input
    up to the first such line and nothing behind it, and no earlier line
    was one. *)
Theorem user_interface_returns_at_q (stem : string -> Z -> Z -> string)
    (index : Index) (stdin : list string) :
  outcome (user_interface stem index stdin) = inr tt →
  ∃ pre line,
    stdin = (pre ++ line :: unread (user_interface stem index stdin))%list
    ∧ PyText.strip line = "q"
    ∧ Forall (fun l => PyText.strip l ≠ "q") pre.
Proof.
  induction stdin as [|line rest IH]; [discriminate|].
  rewrite user_interface_cons.
  destruct (String.eqb _ _) eqn:Hq.
  - intros _. exists [], line. apply String.eqb_eq in Hq. auto.
  - destruct (reply _ _) as [printed [e|u]]; [discriminate|].
    cbn [outcome unread]. intros H.
    destruct (IH H) as (pre & l & Hrest & Hl & Hpre).
    exists (line :: pre), l. split; [simpl; now rewrite <- Hrest|].
    split; [exact Hl|]. constructor; [|exact Hpre].
    now apply String.eqb_neq.
Qed.

Lemma user_interface_returns_at_q_witness :
  outcome (user_interface stem_id (mkIndex ∅ []) ["love"; " q "; "hate"])
  = inr tt
  ∧ ∃ pre line,
      ["love"; " q "; "hate"]
      = (pre ++ line ::
           unread (user_interface stem_id (mkIndex ∅ [])
                     ["love"; " q "; "hate"]))%list
      ∧ PyText.strip line = "q"
      ∧ Forall (fun l => PyText.strip l ≠ "q") pre.
Proof.
  split; [reflexivity|].
  exact (user_interface_returns_at_q stem_id (mkIndex ∅ [])
           ["love"; " q "; "hate"] eq_refl).
Defined.

(** X23. When standard input ends before a line [q], the loop ends with
    [EOFError]: that exception means every line was read and none of
    them was [q] once stripped. *)
Theorem user_interface_end_of_input (stem : string -> Z -> Z -> string)
    (index : Index) (stdin : list string) :
  outcome (user_interface stem index stdin) = inl EOFError →
  unread (user_interface stem index stdin) = []
  ∧ Forall (fun l => PyText.strip l ≠ "q") stdin.
Proof.
  induction stdin as [|line rest IH]; [intros _; split; constructor|].
  rewrite user_interface_cons.
  destruct (String.eqb _ _) eqn:Hq; [discriminate|].
  destruct (reply _ _) as [printed [e|u]] eqn:Hr.
  - cbn [outcome]. intros [= ->]. now apply reply_error in Hr.
  - cbn [outcome unread]. intros H. destruct (IH H) as [Hu Hall].
    split; [exact Hu|]. constructor; [now apply String.eqb_neq | exact Hall].
Qed.

Lemma user_interface_end_of_input_witness :
  outcome (user_interface stem_id (mkIndex ∅ []) ["love"; "Q"])
  = inl EOFError
  ∧ unread (user_interface stem_id (mkIndex ∅ []) ["love"; "Q"]) = []
  ∧ Forall (fun l => PyText.strip l ≠ "q") ["love"; "Q"].
Proof.
  split; [reflexivity|].
  exact (user_interface_end_of_input stem_id (mkIndex ∅ []) ["love"; "Q"]
           eq_refl).
Defined.




Lemma map_err_fails {A B} (f : A → py_exception + B) l :
  Exists (fun x => ∃ e, f x = inl e) l → ∃ e, map_err f l = inl e.
Proof.
  induction 1 as [x l [e He]|x l _ [e IH]]; simpl.
  - rewrite He. eauto.
  - destruct (f x); [eauto|]. rewrite IH. eauto.
Qed.

(** X25. The download is cached as it arrived: after [load_sonnets] has
    fetched the sonnets with status 200, every later call on a world
    that still has the file returns what the first call returned, without
    asking the service and without writing or printing; this holds also
    when the text is not valid JSON, in which case each call raises the
    decoder's exception. *)
Theorem load_sonnets_cached
    (json_loads : string -> py_exception + list RawSonnet)
    (file_name : string) (w : World) (response : Response) :
  files w !! file_name = None →
  service w = inr response →
  status_code response = 200%Z →
  ∃ result w1,
    load_sonnets json_loads file_name w = (result, w1)
    ∧ files w1 = <[file_name := text response]> (files w)
    ∧ ∀ w', files w' !! file_name = files w1 !! file_name →
            load_sonnets json_loads file_name w' = (result, w').
Proof.
  intros Hfile Hservice Hstatus. unfold load_sonnets at 1.
  rewrite Hfile, Hservice, Hstatus. cbn [Z.eqb Pos.eqb].
  do 2 eexists. split; [reflexivity|]. split; [reflexivity|].
  intros w' Hw'. unfold load_sonnets.
  cbn [files print write_file] in Hw'. rewrite Hw', lookup_insert_eq.
  reflexivity.
Qed.

Lemma load_sonnets_cached_witness :
  ∃ result w1,
    load_sonnets (fun _ => inr [mkRawSonnet "Sonnet 1: Fair" ["Fair"]])
                 "json_sonnets.json"
                 (mkWorld ∅ (inr (mkResponse 200 "[...]")) [])
    = (result, w1)
    ∧ files w1 = <["json_sonnets.json" := "[...]"]> ∅
    ∧ ∀ w', files w' !! "json_sonnets.json" = files w1 !! "json_sonnets.json" →
            load_sonnets (fun _ => inr [mkRawSonnet "Sonnet 1: Fair" ["Fair"]])
                         "json_sonnets.json" w'
            = (result, w').
Proof.
  exact (load_sonnets_cached
           (fun _ => inr [mkRawSonnet "Sonnet 1: Fair" ["Fair"]])
           "json_sonnets.json"
           (mkWorld ∅ (inr (mkResponse 200 "[...]")) [])
           (mkResponse 200 "[...]") eq_refl eq_refl eq_refl).
Defined.

(** X26. One record that [Sonnet.__init__] rejects stops the whole
    program: when the loaded list holds such a record, [main] raises
    after printing its first line, before the first prompt, and reads
    nothing from standard input. *)
Theorem main_stops_at_bad_record (stem : string -> Z -> Z -> string)
    (json_loads : string -> py_exception + list RawSonnet)
    (w w1 : World) (sonnets : list RawSonnet) (stdin : list string) :
  load_sonnets json_loads "json_sonnets.json" w = (inr sonnets, w1) →
  Exists (fun record => ∃ e, Sonnet_init record = inl e) sonnets →
  ∃ e, run_outcome (main stem json_loads w stdin) = inl e
    ∧ run_unread (main stem json_loads w stdin) = stdin
    ∧ stdout (world_after (main stem json_loads w stdin))
      = (stdout w1 ++ [Printed "Reading sonnets..."])%list.
Proof.
  intros Hload Hbad. unfold main. rewrite Hload.
  destruct (map_err_fails Sonnet_init sonnets Hbad) as [e He].
  destruct sonnets as [|record rest]; [now apply Exists_nil in Hbad|].
  rewrite He. exists e. auto.
Qed.

Lemma main_stops_at_bad_record_witness :
  ∃ w1 e,
    load_sonnets
      (fun _ => inr [mkRawSonnet "Sonnet 1: Fair" ["Fair"];
                     mkRawSonnet "Sonnet 2 - Hate" ["Hate"]])
      "json_sonnets.json"
      (mkWorld {[ "json_sonnets.json" := "[...]" ]} (inl EOFError) [])
    = (inr [mkRawSonnet "Sonnet 1: Fair" ["Fair"];
            mkRawSonnet "Sonnet 2 - Hate" ["Hate"]], w1)
    ∧ run_outcome
        (main stem_id
           (fun _ => inr [mkRawSonnet "Sonnet 1: Fair" ["Fair"];
                          mkRawSonnet "Sonnet 2 - Hate" ["Hate"]])
           (mkWorld {[ "json_sonnets.json" := "[...]" ]} (inl EOFError) [])
           ["love"; "q"])
      = inl e
    ∧ run_unread
        (main stem_id
           (fun _ => inr [mkRawSonnet "Sonnet 1: Fair" ["Fair"];
                          mkRawSonnet "Sonnet 2 - Hate" ["Hate"]])
           (mkWorld {[ "json_sonnets.json" := "[...]" ]} (inl EOFError) [])
           ["love"; "q"])
      = ["love"; "q"].
Proof.
  assert (Hload :
    load_sonnets
      (fun _ => inr [mkRawSonnet "Sonnet 1: Fair" ["Fair"];
                     mkRawSonnet "Sonnet 2 - Hate" ["Hate"]])
      "json_sonnets.json"
      (mkWorld {[ "json_sonnets.json" := "[...]" ]} (inl EOFError) [])
    = (inr [mkRawSonnet "Sonnet 1: Fair" ["Fair"];
            mkRawSonnet "Sonnet 2 - Hate" ["Hate"]],
       mkWorld {[ "json_sonnets.json" := "[...]" ]} (inl EOFError) []))
    by (vm_compute; reflexivity).
  destruct (main_stops_at_bad_record stem_id _ _ _ _ ["love"; "q"] Hload)
    as (e & He & Hu & _).
  - right. left. eexists. reflexivity.
  - eexists _, e. split; [exact Hload|]. split; [exact He | exact Hu].
Defined.
